(** * The CloudWatch Logs pusher ([plugins/outputs/cloudwatchlogs/pusher.go])

    A shallow embedding of the log-batch pusher: the ingress entry points
    ([AddEvent], [AddEventNonBlocking], [hasValidTime]), the converter
    ([convertEvent]), the stable sort by timestamp ([ByTimestamp] with
    [sort.Stable]), the sender ([send], [createLogGroupAndStream], [reset])
    and the dispatcher loop ([start]).

    Conventions.
    - Go [int], [int64] quantities are [Z]; the one place where the Go code
      can leave the 64-bit range ([Time.UnixNano]) has its wrap-around
      written out, and [Time.Sub] saturates as in Go.
    - A Go [string] is a sequence of bytes: [list byte].
    - A nil-able pointer ([*string], [*time.Time]) is an [option].
    - The remote service is an interface: a record of operations over an
      abstract world state.
    - Everything the pusher does that the outside can see (service calls,
      [done] callbacks, log lines, timer re-arming) is appended to a trace
      of observations. *)

From Stdlib Require Import ZArith QArith Lia List Bool String Strings.Byte.
From Stdlib Require Import Sorted Permutation.
Import ListNotations.
Open Scope Z_scope.

Set Implicit Arguments.

(* ================================================================== *)
(** ** Go's [time] package, as far as the pusher uses it *)

Module GoTime.

(** A wall-clock instant, in nanoseconds relative to the Unix epoch.  Go's
    [time.Time] covers far more than 64 bits of nanoseconds, so instants
    are unbounded here. *)
Definition Time := Z.

(** [time.Duration] is an [int64] count of nanoseconds. *)
Definition Duration := Z.

Definition Millisecond : Duration := 1000000.
Definition Second : Duration := 1000 * Millisecond.
Definition Hour : Duration := 3600 * Second.

Definition minDuration : Duration := - 2 ^ 63.
Definition maxDuration : Duration := 2 ^ 63 - 1.

(** The zero value of [time.Time]: January 1, year 1, 00:00:00 UTC. *)
Definition zeroInstant : Time := - 62135596800 * Second.

Definition IsZero (t : Time) : bool := t =? zeroInstant.

Definition After (t u : Time) : bool := u <? t.
Definition Before (t u : Time) : bool := t <? u.

(** [t.Sub(u)]: the difference, saturated to the range of [Duration]. *)
Definition Sub (t u : Time) : Duration :=
  let d := t - u in
  if d <? minDuration then minDuration
  else if maxDuration <? d then maxDuration
  else d.

(** Two's-complement reduction of an integer to [int64]. *)
Definition wrap64 (z : Z) : Z := (z + 2 ^ 63) mod 2 ^ 64 - 2 ^ 63.

(** [t.UnixNano()]: computed in [int64], wrapping outside its range. *)
Definition UnixNano (t : Time) : Z := wrap64 t.

(** [d.Hours()].  Go returns
    [float64(d / Hour) + float64(d % Hour) / (60*60*1e9)]; the same
    expression is evaluated here over the rationals.  The pusher only
    compares the result with [24*14] and [-2]: a duration that differs from
    those by a nanosecond or more is [2.7e-13] hours away, several units in
    the last place of a [float64] near 336, so the rounding of the float
    does not move a value across either threshold. *)
Definition Hours (d : Duration) : Q :=
  (inject_Z (Z.quot d Hour) + inject_Z (Z.rem d Hour) / inject_Z Hour)%Q.

End GoTime.
Import GoTime.

(* ================================================================== *)
(** ** Data *)

(** A Go string. *)
Definition gostring := list byte.

Definition len {A} (l : list A) : Z := Z.of_nat (List.length l).

(** The identity of a [done] callback: invoking it is an observation. *)
Definition Callback := nat.

(** [logs.LogEvent]: what a producer hands over. *)
Record LogEvent := mkLogEvent {
  Message : gostring;
  Time : GoTime.Time;
  Done : Callback
}.

(** [cloudwatchlogs.InputLogEvent]: what the sink accepts. *)
Record InputLogEvent := mkInputLogEvent {
  ileMessage : gostring;
  Timestamp : Z
}.

Record PutLogEventsInput := mkPutLogEventsInput {
  LogEvents : list InputLogEvent;
  LogGroupName : string;
  LogStreamName : string;
  SequenceToken : option string
}.

Record RejectedLogEventsInfo := mkRejected {
  TooOldLogEventEndIndex : option Z;
  TooNewLogEventStartIndex : option Z;
  ExpiredLogEventEndIndex : option Z
}.

Record PutLogEventsOutput := mkPutLogEventsOutput {
  NextSequenceToken : option string;
  RejectedInfo : option RejectedLogEventsInfo
}.

(** Errors.  [awserr.Error] values are told apart by their dynamic type in
    [send] and by their code in [createLogGroupAndStream]. *)
Inductive awsError :=
| ResourceNotFoundException
| InvalidSequenceTokenException (ExpectedSequenceToken : option string)
| OtherAwsError (code : string).

Inductive error :=
| AwsError (e : awsError)
| NonAwsError.

Definition ErrCodeResourceAlreadyExistsException : string :=
  "ResourceAlreadyExistsException".

Definition Code (e : awsError) : string :=
  match e with
  | ResourceNotFoundException => "ResourceNotFoundException"
  | InvalidSequenceTokenException _ => "InvalidSequenceTokenException"
  | OtherAwsError c => c
  end.

(** The pusher's own fields (the service handle, the timer and the context
    are the environment of the functions below). *)
Record pusher := mkPusher {
  Group : string;
  Stream : string;
  events : list InputLogEvent;
  minT : option GoTime.Time;
  maxT : option GoTime.Time;
  doneCallbacks : list Callback;
  bufferredSize : Z;
  sequenceToken : option string;
  lastValidTime : Z;
  needSort : bool
}.

(** [NewPusher]: the state the dispatcher starts from. *)
Definition NewPusher (group stream : string) : pusher :=
  {| Group := group; Stream := stream;
     events := []; minT := None; maxT := None; doneCallbacks := [];
     bufferredSize := 0; sequenceToken := None; lastValidTime := 0;
     needSort := false |}.

Definition reqSizeLimit : Z := 1024 * 1024.
Definition reqEventsLimit : Z := 10000.

(** Capacity of [eventsCh] ([make(chan logs.LogEvent, 100)]). *)
Definition eventsChCap : Z := 100.

Inductive logLevel := LvlW | LvlE.

(** Observations. [CallPutLogEvents] carries, next to the request, the
    pusher as it is at the moment of the call. *)
Inductive obs :=
| CallPutLogEvents (p : pusher) (input : PutLogEventsInput)
| CallCreateLogGroup (group : string)
| CallCreateLogStream (group stream : string)
| InvokeDone (cb : Callback)
| LogLine (lvl : logLevel)
| FlushTimerReset
| RuntimeGC.

Definition trace := list obs.

(** Predicates on observations. *)
Definition isDone (o : obs) : bool :=
  match o with
  | InvokeDone _ => true
  | _ => false
  end.

Definition isServiceCall (o : obs) : bool :=
  match o with
  | CallPutLogEvents _ _ | CallCreateLogGroup _ | CallCreateLogStream _ _ => true
  | _ => false
  end.

(* ================================================================== *)
(** ** Ingress: the time-range admission check *)

(** Strict comparison of rationals, as a boolean. *)
Definition Qlt_bool (x y : Q) : bool := negb (Qle_bool y x).

Definition hasValidTime (now : GoTime.Time) (e : LogEvent) : bool :=
  if negb (IsZero (Time e)) then
    let dt := Hours (Sub now (Time e)) in
    if Qlt_bool (inject_Z (24 * 14)) dt || Qlt_bool dt (inject_Z (-2))
    then false
    else true
  else true.

(** The age of an event in hours, as a rational: [(now - e.time)] over one
    hour, without the saturation of [Sub]. *)
Definition ageHours (now : GoTime.Time) (e : LogEvent) : Q :=
  (inject_Z (now - Time e) / inject_Z Hour)%Q.

(* ================================================================== *)
(** ** Stable sort by timestamp *)

(** [ByTimestamp.Less], on the elements themselves. *)
Definition Less (a b : InputLogEvent) : bool := Timestamp a <? Timestamp b.

(** [sort.Stable] belongs to Go's library.  A stable sort is determined by
    its comparison: the result is the one ordered permutation that keeps
    elements that are not [Less] than one another in their input order.
    Insertion from the right, placing an element before the first one that is
    not [Less] than it, computes exactly that. *)
Fixpoint insertStable (x : InputLogEvent) (l : list InputLogEvent) :=
  match l with
  | [] => [x]
  | y :: l' => if Less y x then y :: insertStable x l' else x :: l
  end.

Fixpoint sortStable (l : list InputLogEvent) : list InputLogEvent :=
  match l with
  | [] => []
  | x :: l' => insertStable x (sortStable l')
  end.

(** Non-decreasing by timestamp. *)
Definition tsLe (a b : InputLogEvent) : Prop := Timestamp a <= Timestamp b.
Definition nonDecreasing (l : list InputLogEvent) : Prop := Sorted tsLe l.

Fixpoint nonDecreasingb (l : list InputLogEvent) : bool :=
  match l with
  | [] => true
  | x :: l' =>
      match l' with
      | [] => true
      | y :: _ => (Timestamp x <=? Timestamp y) && nonDecreasingb l'
      end
  end.

(** Stability: the events of any one timestamp keep their relative order. *)
Definition withTimestamp (t : Z) (l : list InputLogEvent) : list InputLogEvent :=
  filter (fun x => Timestamp x =? t) l.

(** The request of a [PutLogEvents] call is in order. *)
Definition putOrdered (o : obs) : Prop :=
  match o with
  | CallPutLogEvents _ input => nonDecreasing (LogEvents input)
  | _ => True
  end.

(* ================================================================== *)
(** ** The pusher over a service *)

(** Setters for the fields the code assigns. *)
Definition set_events (l : list InputLogEvent) (p : pusher) : pusher :=
  mkPusher (Group p) (Stream p) l (minT p) (maxT p) (doneCallbacks p)
    (bufferredSize p) (sequenceToken p) (lastValidTime p) (needSort p).

Definition set_sequenceToken (t : option string) (p : pusher) : pusher :=
  mkPusher (Group p) (Stream p) (events p) (minT p) (maxT p)
    (doneCallbacks p) (bufferredSize p) t (lastValidTime p) (needSort p).

Definition set_lastValidTime (t : Z) (p : pusher) : pusher :=
  mkPusher (Group p) (Stream p) (events p) (minT p) (maxT p)
    (doneCallbacks p) (bufferredSize p) (sequenceToken p) t (needSort p).

Definition set_needSort (b : bool) (p : pusher) : pusher :=
  mkPusher (Group p) (Stream p) (events p) (minT p) (maxT p)
    (doneCallbacks p) (bufferredSize p) (sequenceToken p) (lastValidTime p) b.

(** [reset]: empties the buffer; the sequence token and the last valid time
    stay. *)
Definition reset (p : pusher) : pusher :=
  mkPusher (Group p) (Stream p) [] None None [] 0
    (sequenceToken p) (lastValidTime p) false.

(** The interface [CloudWatchLogsService], over the state [W] of whatever
    is behind it. *)
Record CloudWatchLogsService (W : Type) := mkService {
  PutLogEvents : PutLogEventsInput -> W -> (PutLogEventsOutput + error) * W;
  CreateLogStream : string -> string -> W -> option error * W;
  CreateLogGroup : string -> W -> option error * W
}.

Section Pusher.

(** [msgSizeLimit], [truncatedSuffix] and [eventHeaderSize] are constants
    of the package declared outside [pusher.go]; the pusher is modelled
    for any values of them. *)
Variable msgSizeLimit : Z.
Variable truncatedSuffix : gostring.
Variable eventHeaderSize : Z.

Variable W : Type.
Variable Service : CloudWatchLogsService W.

(** *** Computations of the worker

    A computation runs against the world behind the service, appends to
    the trace, and either returns or is cut off (the recursion of [send]
    has no bound in the code; a run is followed for a given depth and the
    trace up to there is kept). *)
Definition M (A : Type) : Type := W -> trace * option (A * W).

Definition ret {A} (a : A) : M A := fun w => ([], Some (a, w)).

Definition bind {A B} (m : M A) (f : A -> M B) : M B :=
  fun w =>
    match m w with
    | (t1, None) => (t1, None)
    | (t1, Some (a, w1)) =>
        match f a w1 with
        | (t2, r) => (t1 ++ t2, r)
        end
    end.

Definition cutOff {A} : M A := fun _ => ([], None).

Definition emit (o : obs) : M unit := fun w => ([o], Some (tt, w)).

Notation "x <- m ;; k" := (bind m (fun x => k))
  (at level 61, m at next level, right associativity).
Notation "m ;;; k" := (bind m (fun _ => k))
  (at level 61, right associativity).

Definition callPutLogEvents (p : pusher) (input : PutLogEventsInput)
  : M (PutLogEventsOutput + error) :=
  fun w =>
    let (r, w1) := PutLogEvents Service input w in
    ([CallPutLogEvents p input], Some (r, w1)).

Definition callCreateLogGroup (group : string) : M (option error) :=
  fun w =>
    let (r, w1) := CreateLogGroup Service group w in
    ([CallCreateLogGroup group], Some (r, w1)).

Definition callCreateLogStream (group stream : string) : M (option error) :=
  fun w =>
    let (r, w1) := CreateLogStream Service group stream w in
    ([CallCreateLogStream group stream], Some (r, w1)).

(** *** What a computation guarantees

    [holds P Q m]: whatever the world is, every observation [m] makes
    satisfies [P] (also when [m] is cut off), and a value it returns
    satisfies [Q]. *)
Definition holds {A} (P : obs -> Prop) (Q : A -> Prop) (m : M A) : Prop :=
  forall w,
    Forall P (fst (m w)) /\
    (forall a w', snd (m w) = Some (a, w') -> Q a).

(** *** [convertEvent] *)

Definition truncateMessage (message : gostring) : gostring :=
  if len message >? msgSizeLimit
  then firstn (Z.to_nat (msgSizeLimit - len truncatedSuffix)) message
         ++ truncatedSuffix
  else message.

(** [now] is what [time.Now()] reads if the function gets to ask.  Go's
    [/] on integers truncates towards zero: [Z.quot]. *)
Definition convertEvent (now : GoTime.Time) (e : LogEvent) (p : pusher)
  : InputLogEvent * pusher :=
  let message := truncateMessage (Message e) in
  if IsZero (Time e) then
    if negb (lastValidTime p =? 0) then
      (mkInputLogEvent message (lastValidTime p), p)
    else
      (mkInputLogEvent message (Z.quot (UnixNano now) 1000000), p)
  else
    let t := Z.quot (UnixNano (Time e)) 1000000 in
    (mkInputLogEvent message t, set_lastValidTime t p).

(** What a pusher has converted so far: each event with the clock reading
    of its conversion, oldest first. *)
Definition history := list (GoTime.Time * LogEvent).

Fixpoint afterHistory (h : history) (p : pusher) : pusher :=
  match h with
  | [] => p
  | (now, e) :: h' => afterHistory h' (snd (convertEvent now e p))
  end.

(** The milliseconds of an instant as [convertEvent] computes them. *)
Definition unixMilli (t : GoTime.Time) : Z := Z.quot (UnixNano t) 1000000.

(** The milliseconds of the most recent event of a history that carried a
    time; [d] if no event did. *)
Fixpoint lastRecorded (h : history) (d : Z) : Z :=
  match h with
  | [] => d
  | (_, e) :: h' =>
      lastRecorded h' (if IsZero (Time e) then d else unixMilli (Time e))
  end.

(** Whether some event of the history carried a time. *)
Definition someValid (h : history) : bool :=
  existsb (fun ne => negb (IsZero (Time (snd ne)))) h.

(** *** [createLogGroupAndStream] *)

Definition createLogGroupAndStream (p : pusher) : M (option error) :=
  err <- callCreateLogGroup (Group p) ;;
  match err with
  | Some NonAwsError => ret err
  | Some (AwsError a) =>
      if negb (String.eqb (Code a) ErrCodeResourceAlreadyExistsException)
      then ret err
      else callCreateLogStream (Group p) (Stream p)
  | None => callCreateLogStream (Group p) (Stream p)
  end.

(** *** [send] *)

(** The first statement of [send]: sort in place when flagged. *)
Definition sortIfNeeded (p : pusher) : pusher :=
  if needSort p then set_events (sortStable (events p)) p else p.

Definition putInput (p : pusher) : PutLogEventsInput :=
  {| LogEvents := events p;
     LogGroupName := Group p;
     LogStreamName := Stream p;
     SequenceToken := sequenceToken p |}.

Definition warnIf {A} (o : option A) : M unit :=
  match o with
  | Some _ => emit (LogLine LvlW)
  | None => ret tt
  end.

Definition warnRejected (output : PutLogEventsOutput) : M unit :=
  match RejectedInfo output with
  | Some info =>
      warnIf (TooOldLogEventEndIndex info) ;;;
      warnIf (TooNewLogEventStartIndex info) ;;;
      warnIf (ExpiredLogEventEndIndex info)
  | None => ret tt
  end.

Fixpoint invokeAll (cbs : list Callback) : M unit :=
  match cbs with
  | [] => ret tt
  | done :: rest => emit (InvokeDone done) ;;; invokeAll rest
  end.

Fixpoint send (depth : nat) (p : pusher) : M pusher :=
  match depth with
  | O => cutOff
  | S depth' =>
      let p := sortIfNeeded p in
      r <- callPutLogEvents p (putInput p) ;;
      match r with
      | inl output =>
          let p := match NextSequenceToken output with
                   | Some t => set_sequenceToken (Some t) p
                   | None => p
                   end in
          warnRejected output ;;;
          invokeAll (doneCallbacks p) ;;;
          let p := reset p in
          emit RuntimeGC ;;;
          ret p
      | inr NonAwsError =>
          emit (LogLine LvlE) ;;;
          ret (reset p)
      | inr (AwsError ResourceNotFoundException) =>
          err <- createLogGroupAndStream p ;;
          match err with
          | Some _ => emit (LogLine LvlE) ;;; ret p
          | None => send depth' p
          end
      | inr (AwsError (InvalidSequenceTokenException expected)) =>
          emit (LogLine LvlW) ;;;
          match expected with
          | None => emit (LogLine LvlE) ;;; ret p
          | Some t => send depth' (set_sequenceToken (Some t) p)
          end
      | inr (AwsError (OtherAwsError _)) =>
          emit (LogLine LvlE) ;;;
          ret (reset p)
      end
  end.

(** *** [start]: the dispatcher loop *)

(** What the [select] of the loop can receive. *)
Inductive signal :=
| EventReceived (now : GoTime.Time) (e : LogEvent)
| FlushTimerFired
| CtxDone.

Definition spanExceeded (et : GoTime.Time) (p : pusher) : bool :=
  match minT p with
  | Some t => Sub et t >? 24 * Hour
  | None => false
  end
  || match maxT p with
     | Some t => Sub t et >? 24 * Hour
     | None => false
     end.

Definition lastTimestamp (p : pusher) : option Z :=
  match rev (events p) with
  | [] => None
  | x :: _ => Some (Timestamp x)
  end.

Definition markNeedSort (ce : InputLogEvent) (p : pusher) : pusher :=
  match lastTimestamp p with
  | Some t => if Timestamp ce <? t then set_needSort true p else p
  | None => p
  end.

Definition appendEvent (ce : InputLogEvent) (e : LogEvent) (size : Z)
  (p : pusher) : pusher :=
  let et := Time e in
  mkPusher (Group p) (Stream p)
    (events p ++ [ce])
    (match minT p with
     | None => Some et
     | Some t => if After t et then Some et else Some t
     end)
    (match maxT p with
     | None => Some et
     | Some t => if Before t et then Some et else Some t
     end)
    (doneCallbacks p ++ [Done e])
    (bufferredSize p + size)
    (sequenceToken p) (lastValidTime p) (needSort p).

Definition flushIf (c : bool) (depth : nat) (p : pusher) : M pusher :=
  if c then send depth p else ret p.

(** The body of [case e := <-p.eventsCh]. *)
Definition onEvent (depth : nat) (now : GoTime.Time) (e : LogEvent)
  (p : pusher) : M pusher :=
  (if len (events p) =? 0 then emit FlushTimerReset else ret tt) ;;;
  let et := Time e in
  p <- flushIf (spanExceeded et p) depth p ;;
  let (ce, p) := convertEvent now e p in
  let size := len (ileMessage ce) + eventHeaderSize in
  p <- flushIf ((bufferredSize p + size >? reqSizeLimit)
                || (len (events p) =? reqEventsLimit)) depth p ;;
  let p := markNeedSort ce p in
  ret (appendEvent ce e size p).

(** The loop, run over the signals it receives one after the other; it
    returns at [CtxDone], or with the signals given exhausted. *)
Fixpoint start (depth : nat) (sigs : list signal) (p : pusher) : M pusher :=
  match sigs with
  | [] => ret p
  | EventReceived now e :: rest =>
      p <- onEvent depth now e p ;;
      start depth rest p
  | FlushTimerFired :: rest =>
      p <- flushIf (0 <? len (events p)) depth p ;;
      start depth rest p
  | CtxDone :: _ =>
      flushIf (0 <? len (events p)) depth p
  end.

End Pusher.

(** Without the flag, the buffer is in order. *)
Definition orderKept (p : pusher) : Prop :=
  needSort p = false -> nonDecreasing (events p).

(** The non-recoverable answers. *)
Definition nonRecoverable (err : error) : Prop :=
  match err with
  | NonAwsError => True
  | AwsError (OtherAwsError _) => True
  | AwsError _ => False
  end.

(** What [createLogGroupAndStream] shows of itself: the two calls, or the
    first alone. *)
Definition isCreateCall (o : obs) : Prop :=
  match o with
  | CallCreateLogGroup _ | CallCreateLogStream _ _ => True
  | _ => False
  end.

(* ================================================================== *)
(** ** A service that answers from a script

    The world behind it is the answers still to give, one list per
    operation; a call takes the first answer of its list, and succeeds with
    an empty response once the list is used up. *)

Record script := mkScript {
  putAnswers : list (PutLogEventsOutput + error);
  groupAnswers : list (option error);
  streamAnswers : list (option error)
}.

Definition emptyOutput : PutLogEventsOutput := mkPutLogEventsOutput None None.

Definition scripted : CloudWatchLogsService script :=
  {| PutLogEvents := fun _ w =>
       match putAnswers w with
       | [] => (inl emptyOutput, w)
       | r :: rest => (r, mkScript rest (groupAnswers w) (streamAnswers w))
       end;
     CreateLogStream := fun _ _ w =>
       match streamAnswers w with
       | [] => (None, w)
       | r :: rest => (r, mkScript (putAnswers w) (groupAnswers w) rest)
       end;
     CreateLogGroup := fun _ w =>
       match groupAnswers w with
       | [] => (None, w)
       | r :: rest => (r, mkScript (putAnswers w) rest (streamAnswers w))
       end |}.

(* ================================================================== *)
(** ** Ingress: the channel and the two entry points *)

(** [eventsCh]: the pending events, oldest first. *)
Definition chan := list LogEvent.

(** A send that does not have to wait. *)
Definition chSend (e : LogEvent) (ch : chan) : option chan :=
  if len ch <? eventsChCap then Some (ch ++ [e]) else None.

(** A receive that does not have to wait. *)
Definition chRecv (ch : chan) : option (LogEvent * chan) :=
  match ch with
  | [] => None
  | x :: rest => Some (x, rest)
  end.

(** How far a call of an entry point got when left alone with the channel. *)
Inductive progress :=
| Returned (ch : chan)
| Blocked (ch : chan).

Definition AddEvent (now : GoTime.Time) (e : LogEvent) (ch : chan)
  : trace * progress :=
  if negb (hasValidTime now e) then ([LogLine LvlE], Returned ch)
  else match chSend e ch with
       | Some ch' => ([], Returned ch')
       | None => ([], Blocked ch)
       end.

(** The loop of [AddEventNonBlocking] has two places where the goroutine
    touches the channel: the [select] and the receive of its [default]
    branch.  Other goroutines may run in between. *)
Inductive nbPoint :=
| AtSelect
| AtReceive.

Inductive nbOutcome :=
| NbReturned
| NbAt (pt : nbPoint).

(** One step of the loop from a point; [None] when the goroutine has to
    wait there.  The event taken by the receive is not used: it is returned
    here only to name it. *)
Definition nbStep (e : LogEvent) (pt : nbPoint) (ch : chan)
  : option (nbOutcome * chan * list LogEvent) :=
  match pt with
  | AtSelect =>
      match chSend e ch with
      | Some ch' => Some (NbReturned, ch', [])
      | None => Some (NbAt AtReceive, ch, [])
      end
  | AtReceive =>
      match chRecv ch with
      | Some (x, ch') => Some (NbAt AtSelect, ch', [x])
      | None => None
      end
  end.

(** The loop left alone with the channel, for at most [n] steps. *)
Fixpoint nbLoop (n : nat) (e : LogEvent) (pt : nbPoint) (ch : chan)
  : progress * list LogEvent :=
  match n with
  | O => (Blocked ch, [])
  | S n' =>
      match nbStep e pt ch with
      | None => (Blocked ch, [])
      | Some (NbReturned, ch', ev) => (Returned ch', ev)
      | Some (NbAt pt', ch', ev) =>
          let (r, ev') := nbLoop n' e pt' ch' in (r, ev ++ ev')
      end
  end.

(** [AddEventNonBlocking] left alone with the channel: the trace, how far
    it got, and the events it took out of the channel. *)
Definition AddEventNonBlocking (n : nat) (now : GoTime.Time) (e : LogEvent)
  (ch : chan) : trace * progress * list LogEvent :=
  if negb (hasValidTime now e) then ([LogLine LvlE], Returned ch, [])
  else let (r, ev) := nbLoop n e AtSelect ch in ([], r, ev).

(** The same loop with the worker running in between: a schedule says who
    moves next.  The worker's move is the receive of its [select]. *)
Inductive actor :=
| TheProducer
| TheWorker.

(** The state of the race: where the producer is, the channel, what the
    producer took out and what the worker received. *)
Record raceState := mkRace {
  rcAt : nbOutcome;
  rcChan : chan;
  rcEvicted : list LogEvent;
  rcReceived : list LogEvent
}.

(** [None]: the actor chosen cannot move (it has returned, or it waits). *)
Definition raceStep (e : LogEvent) (a : actor) (st : raceState)
  : option raceState :=
  match a with
  | TheProducer =>
      match rcAt st with
      | NbReturned => None
      | NbAt pt =>
          match nbStep e pt (rcChan st) with
          | Some (o, ch', ev) =>
              Some (mkRace o ch' (rcEvicted st ++ ev) (rcReceived st))
          | None => None
          end
      end
  | TheWorker =>
      match chRecv (rcChan st) with
      | Some (x, ch') =>
          Some (mkRace (rcAt st) ch' (rcEvicted st) (rcReceived st ++ [x]))
      | None => None
      end
  end.

Fixpoint raceRun (e : LogEvent) (sched : list actor) (st : raceState)
  : option raceState :=
  match sched with
  | [] => Some st
  | a :: rest =>
      match raceStep e a st with
      | Some st' => raceRun e rest st'
      | None => None
      end
  end.


(* ================================================================== *)
(** ** Producers and worker around the channel

    The entry points and the worker as moves on one state: the channel, the
    pusher and the world behind the service.  A producer's call is taken
    as a whole here (the race inside [AddEventNonBlocking] is [raceRun]'s
    matter); a move that cannot complete from the state it finds (a
    blocked send, a receive on an empty channel, a cut-off [send]) ends
    the run. *)

Section System.

Variable msgSizeLimit : Z.
Variable truncatedSuffix : gostring.
Variable eventHeaderSize : Z.
Variable W : Type.
Variable Service : CloudWatchLogsService W.

Record system := mkSystem {
  sysChan : chan;
  sysPusher : pusher;
  sysWorld : W
}.

Inductive move :=
| CallAddEvent (now : GoTime.Time) (e : LogEvent)
| CallAddEventNonBlocking (now : GoTime.Time) (e : LogEvent)
| WorkerReceives (now : GoTime.Time)
| WorkerTimer.

Definition workerResult (ch : chan) (r : trace * option (pusher * W))
  : trace * option system :=
  match r with
  | (tr, Some (p, w)) => (tr, Some (mkSystem ch p w))
  | (tr, None) => (tr, None)
  end.

Definition sysStep (depth : nat) (m : move) (st : system)
  : trace * option system :=
  match m with
  | CallAddEvent now e =>
      match AddEvent now e (sysChan st) with
      | (tr, Returned ch) =>
          (tr, Some (mkSystem ch (sysPusher st) (sysWorld st)))
      | (tr, Blocked _) => (tr, None)
      end
  | CallAddEventNonBlocking now e =>
      match AddEventNonBlocking 3 now e (sysChan st) with
      | (tr, Returned ch, _) =>
          (tr, Some (mkSystem ch (sysPusher st) (sysWorld st)))
      | (tr, Blocked _, _) => (tr, None)
      end
  | WorkerReceives now =>
      match chRecv (sysChan st) with
      | Some (e, ch) =>
          workerResult ch
            (onEvent msgSizeLimit truncatedSuffix eventHeaderSize Service
               depth now e (sysPusher st) (sysWorld st))
      | None => ([], None)
      end
  | WorkerTimer =>
      workerResult (sysChan st)
        (flushIf Service (0 <? len (events (sysPusher st))) depth
           (sysPusher st) (sysWorld st))
  end.

Fixpoint sysRun (depth : nat) (moves : list move) (st : system)
  : trace * option system :=
  match moves with
  | [] => ([], Some st)
  | m :: rest =>
      match sysStep depth m st with
      | (tr, Some st') =>
          match sysRun depth rest st' with
          | (tr', r) => (tr ++ tr', r)
          end
      | (tr, None) => (tr, None)
      end
  end.

End System.

(* ================================================================== *)
(** ** Concrete values and runs *)

(** Modelled from the spec: [msgSizeLimit] and [eventHeaderSize] are
    declared outside [pusher.go]; sections 3 and 6 of the specification give
    262 144 bytes and 26 bytes.  The text of the suffix is not given there:
    any text that fits will do. *)
Definition specMsgSizeLimit : Z := 262144.
Definition specEventHeaderSize : Z := 26.
Definition someSuffix : gostring := list_byte_of_string "[Truncated...]".

(** An instant in November 2023. *)
Definition t0 : GoTime.Time := 1700000000 * Second.

(** For each [PutLogEvents] call of a trace: the buffered size and the
    number of events at the moment of the call. *)
Fixpoint putSizes (tr : trace) : list (Z * Z) :=
  match tr with
  | [] => []
  | CallPutLogEvents p _ :: rest =>
      (bufferredSize p, len (events p)) :: putSizes rest
  | _ :: rest => putSizes rest
  end.

(** For each [PutLogEvents] call of a trace: [maxT - minT] at the moment
    of the call, if the two are set. *)
Fixpoint putSpans (tr : trace) : list (option Z) :=
  match tr with
  | [] => []
  | CallPutLogEvents p _ :: rest =>
      match minT p, maxT p with
      | Some a, Some b => Some (b - a)
      | _, _ => None
      end :: putSpans rest
  | _ :: rest => putSpans rest
  end.

Definition accessDenied : error := AwsError (OtherAwsError "AccessDeniedException").

(** The stream does not exist and the agent may not create it. *)
Definition streamMissing (n : nat) : script :=
  mkScript (repeat (inr (AwsError ResourceNotFoundException)) n)
           (repeat (Some accessDenied) n) [].

(** Five events of 250 000 bytes each, all stamped [t0] and received at
    [t0], then the flush timer. *)
Definition bigEvent (k : Callback) : LogEvent :=
  mkLogEvent (repeat "a"%byte (Z.to_nat 250000)) t0 k.

Definition oversizeSignals : list signal :=
  [EventReceived t0 (bigEvent 1%nat); EventReceived t0 (bigEvent 2%nat);
   EventReceived t0 (bigEvent 3%nat); EventReceived t0 (bigEvent 4%nat);
   EventReceived t0 (bigEvent 5%nat); FlushTimerFired].

Definition oversizeRun :=
  start specMsgSizeLimit someSuffix specEventHeaderSize scripted 4
    oversizeSignals (NewPusher "group" "stream") (streamMissing 1).

(** An event 25 hours old and a fresh one, both inside the admission
    window at [t0], then the flush timer. *)
Definition agedEvent : LogEvent :=
  mkLogEvent (list_byte_of_string "old") (t0 - 25 * Hour) 1%nat.
Definition freshEvent : LogEvent :=
  mkLogEvent (list_byte_of_string "new") t0 2%nat.

Definition spanSignals : list signal :=
  [EventReceived t0 agedEvent; EventReceived t0 freshEvent; FlushTimerFired].

Definition spanRun :=
  start specMsgSizeLimit someSuffix specEventHeaderSize scripted 4
    spanSignals (NewPusher "group" "stream") (streamMissing 1).

(** Two events that arrive against the order of their times. *)
Definition laterEvent : LogEvent :=
  mkLogEvent (list_byte_of_string "b") (t0 + 3 * Millisecond) 1%nat.
Definition earlierEvent : LogEvent :=
  mkLogEvent (list_byte_of_string "a") (t0 + 1 * Millisecond) 2%nat.

Definition outOfOrderSignals : list signal :=
  [EventReceived t0 laterEvent; EventReceived t0 earlierEvent].

Definition outOfOrderRun :=
  start specMsgSizeLimit someSuffix specEventHeaderSize scripted 4
    outOfOrderSignals (NewPusher "group" "stream") (mkScript [] [] []).

(** The service answers [InvalidSequenceTokenException] without saying
    which token it expects. *)
Definition tokenUnknown : script :=
  mkScript [inr (AwsError (InvalidSequenceTokenException None))] [] [].

(** An event stamped with the epoch itself, and one without a time. *)
Definition epochEvent : LogEvent := mkLogEvent [] 0 1%nat.
Definition untimedEvent : LogEvent := mkLogEvent [] zeroInstant 2%nat.
Definition preEpochEvent : LogEvent := mkLogEvent [] (-1) 3%nat.

(** A channel filled to its capacity, and one more event. *)
Definition fullChan : chan :=
  map (fun k => mkLogEvent [] t0 k) (seq 0 100).
Definition oneMore : LogEvent := mkLogEvent [] t0 100%nat.

(** The producer finds the channel full; the worker then takes all that is
    pending before the producer gets to its receive. *)
Definition drainSchedule : list actor :=
  TheProducer :: repeat TheWorker 100.

(** A message one byte over the limit. *)
Definition longEvent : LogEvent :=
  mkLogEvent (repeat "x"%byte (Z.to_nat (specMsgSizeLimit + 1))) t0 1%nat.

(** An event fifteen days old at [t0]. *)
Definition staleEvent : LogEvent :=
  mkLogEvent (list_byte_of_string "stale") (t0 - 15 * 24 * Hour) 1%nat.

(** The pusher after [outOfOrderSignals]. *)
Definition unsortedPusher : pusher :=
  mkPusher "group" "stream"
    [mkInputLogEvent (list_byte_of_string "b") 1700000000003;
     mkInputLogEvent (list_byte_of_string "a") 1700000000001]
    (Some (t0 + 1 * Millisecond)) (Some (t0 + 3 * Millisecond))
    [1%nat; 2%nat] 54 None 1700000000001 true.

(* ================================================================== *)
(** ** The shape of the buffer *)

Section Shape.

Variable eventHeaderSize : Z.

(** What the loop adds to [bufferredSize] for one event. *)
Definition eventSize (ce : InputLogEvent) : Z :=
  len (ileMessage ce) + eventHeaderSize.

Fixpoint sumSizes (l : list InputLogEvent) : Z :=
  match l with
  | [] => 0
  | x :: l' => eventSize x + sumSizes l'
  end.

(** Events and callbacks run in parallel, the size is the sum over the
    events, and [minT], [maxT] are set, in order, exactly when there is an
    event. *)
Definition wellFormed (p : pusher) : Prop :=
  len (events p) = len (doneCallbacks p)
  /\ bufferredSize p = sumSizes (events p)
  /\ match events p with
     | [] => minT p = None /\ maxT p = None
     | _ :: _ => exists a b, minT p = Some a /\ maxT p = Some b /\ a <= b
     end.

(** [strict] asks in addition that the buffer is not empty. *)
Definition sendable (strict : bool) (p : pusher) : Prop :=
  wellFormed p /\ (strict = true -> events p <> []).

Definition putSendable (strict : bool) (o : obs) : Prop :=
  match o with
  | CallPutLogEvents p input => sendable strict p /\ input = putInput p
  | _ => True
  end.

End Shape.

(** The limits of one request. *)
Definition withinLimits (p : pusher) : Prop :=
  bufferredSize p <= reqSizeLimit
  /\ len (events p) <= reqEventsLimit
  /\ match minT p, maxT p with
     | Some a, Some b => b - a <= 24 * Hour
     | _, _ => True
     end.

Definition putWithinLimits (o : obs) : Prop :=
  match o with
  | CallPutLogEvents p _ => withinLimits p
  | _ => True
  end.

(** The buffer after [reset]. *)
Definition cleared (p : pusher) : Prop :=
  events p = [] /\ doneCallbacks p = [] /\ bufferredSize p = 0
  /\ minT p = None /\ maxT p = None /\ needSort p = false.

(** A service with which [send] never returns with the buffer kept:
    [PutLogEvents] never answers [InvalidSequenceTokenException] without the
    expected token, and creating the group and the stream never fails. *)
Definition neverKeeps {W} (Service : CloudWatchLogsService W) : Prop :=
  (forall input w,
      fst (PutLogEvents Service input w)
        <> inr (AwsError (InvalidSequenceTokenException None)))
  /\ (forall p w a w',
        snd (createLogGroupAndStream Service p w) = Some (a, w') -> a = None).

(** A stream that does not exist until it is created; the world is whether
    it exists. *)
Definition freshStream : CloudWatchLogsService bool :=
  {| PutLogEvents := fun (_ : PutLogEventsInput) (w : bool) =>
       if w then (inl emptyOutput, w)
       else (inr (AwsError ResourceNotFoundException), w);
     CreateLogStream := fun (_ _ : string) (_ : bool) => (None, true);
     CreateLogGroup := fun (_ : string) (w : bool) => (None, w) |}.

(** The callbacks a trace shows as invoked, in order. *)
Fixpoint invoked (tr : trace) : list Callback :=
  match tr with
  | [] => []
  | InvokeDone cb :: rest => cb :: invoked rest
  | _ :: rest => invoked rest
  end.

(** The callbacks of the events a list of signals delivers, in order. *)
Fixpoint delivered (sigs : list signal) : list Callback :=
  match sigs with
  | [] => []
  | EventReceived _ e :: rest => Done e :: delivered rest
  | CtxDone :: _ => []
  | _ :: rest => delivered rest
  end.

(** [l1] is [l2] with some elements left out. *)
Inductive subseq {A} : list A -> list A -> Prop :=
| subseq_nil : subseq [] []
| subseq_skip x l1 l2 : subseq l1 l2 -> subseq l1 (x :: l2)
| subseq_take x l1 l2 : subseq l1 l2 -> subseq (x :: l1) (x :: l2).

(** The callbacks still buffered when a computation has returned. *)
Definition pending {W} (r : option (pusher * W)) : list Callback :=
  match r with
  | Some (p, _) => doneCallbacks p
  | None => []
  end.

(** What a call of [send] does with the callbacks buffered in [p]: it
    invokes all of them, in order, and returns with none, or it invokes
    none and returns with all of them or with none (or does not return). *)
Definition sendOutcome {W} (p : pusher) (x : trace * option (pusher * W))
  : Prop :=
  (invoked (fst x) = doneCallbacks p /\ pending (snd x) = [])
  \/ (invoked (fst x) = [] /\
      (pending (snd x) = doneCallbacks p \/ pending (snd x) = [])).

(** The callbacks a computation has invoked, followed by those still
    buffered when it returns, come from [before], in the order of
    [before]. *)
Definition flowsInto {W} (x : trace * option (pusher * W))
  (before : list Callback) : Prop :=
  subseq (invoked (fst x) ++ pending (snd x)) before.

(** The events of the submissions, among some moves, that pass the
    admission check, in the order of the moves. *)
Fixpoint accepted (moves : list move) : list LogEvent :=
  match moves with
  | [] => []
  | CallAddEvent now e :: rest =>
      if hasValidTime now e then e :: accepted rest else accepted rest
  | CallAddEventNonBlocking now e :: rest =>
      if hasValidTime now e then e :: accepted rest else accepted rest
  | _ :: rest => accepted rest
  end.

(** Two submissions at [t0], the second of a stale event, on an empty
    channel. *)
Definition twoSubmissions : list move :=
  [CallAddEvent t0 freshEvent; CallAddEventNonBlocking t0 staleEvent].

Definition idleSystem : system script :=
  mkSystem [] (NewPusher "group" "stream") (mkScript [] [] []).
(* ================================================================== *)
(** * Properties *)

(** ** Lists and lengths *)

Lemma len_nonneg {A} (l : list A) : 0 <= len l.
Proof. unfold len. lia. Qed.

Lemma len_app {A} (l1 l2 : list A) : len (l1 ++ l2) = len l1 + len l2.
Proof. unfold len. rewrite length_app. lia. Qed.

Lemma len_nil_iff {A} (l : list A) : len l = 0 <-> l = [].
Proof.
  unfold len. destruct l; simpl; split; intros H; try reflexivity;
    try discriminate; lia.
Qed.

(** ** The stable sort *)

Lemma insertStable_perm x l : Permutation (insertStable x l) (x :: l).
Proof.
  induction l as [|y l IH]; simpl.
  - apply Permutation_refl.
  - destruct (Less y x).
    + eapply perm_trans; [apply perm_skip, IH | apply perm_swap].
    + apply Permutation_refl.
Qed.

Lemma sortStable_perm l : Permutation (sortStable l) l.
Proof.
  induction l as [|x l IH]; simpl.
  - constructor.
  - eapply perm_trans; [apply insertStable_perm | apply perm_skip, IH].
Qed.

Lemma insertStable_hd x y l :
  Timestamp y <= Timestamp x -> HdRel tsLe y l -> HdRel tsLe y (insertStable x l).
Proof.
  intros Hxy Hhd. destruct l as [|z l]; simpl.
  - constructor. exact Hxy.
  - inversion Hhd; subst. destruct (Less z x); constructor; assumption.
Qed.

Lemma insertStable_sorted x l :
  nonDecreasing l -> nonDecreasing (insertStable x l).
Proof.
  unfold nonDecreasing. induction l as [|y l IH]; simpl; intros Hs.
  - repeat constructor.
  - inversion Hs as [|? ? Hl Hhd]; subst.
    unfold Less. destruct (Z.ltb_spec (Timestamp y) (Timestamp x)) as [Hlt|Hge].
    + constructor.
      * apply IH, Hl.
      * apply insertStable_hd; [lia | exact Hhd].
    + constructor; [exact Hs | constructor; exact Hge].
Qed.

Lemma sortStable_sorted l : nonDecreasing (sortStable l).
Proof.
  induction l as [|x l IH]; simpl.
  - constructor.
  - apply insertStable_sorted, IH.
Qed.

(** Sorting what is in order already changes nothing. *)
Lemma sortStable_fixed l : nonDecreasing l -> sortStable l = l.
Proof.
  unfold nonDecreasing. induction l as [|x l IH]; simpl; intros Hs.
  - reflexivity.
  - inversion Hs as [|? ? Hl Hhd]; subst. rewrite (IH Hl).
    destruct l as [|y l]; simpl.
    + reflexivity.
    + inversion Hhd as [|? ? Hxy]; subst. unfold tsLe in Hxy. unfold Less.
      destruct (Z.ltb_spec (Timestamp y) (Timestamp x)); [lia | reflexivity].
Qed.

Lemma sortStable_idem l : sortStable (sortStable l) = sortStable l.
Proof. apply sortStable_fixed, sortStable_sorted. Qed.


Lemma insertStable_stable t x l :
  withTimestamp t (insertStable x l) = withTimestamp t (x :: l).
Proof.
  unfold withTimestamp. induction l as [|y l IH]; simpl.
  - reflexivity.
  - unfold Less. destruct (Z.ltb_spec (Timestamp y) (Timestamp x)) as [Hlt|Hge].
    + simpl. rewrite IH. simpl.
      destruct (Z.eqb_spec (Timestamp y) t), (Z.eqb_spec (Timestamp x) t);
        try reflexivity; lia.
    + reflexivity.
Qed.

Lemma sortStable_stable t l :
  withTimestamp t (sortStable l) = withTimestamp t l.
Proof.
  induction l as [|x l IH]; simpl.
  - reflexivity.
  - rewrite insertStable_stable. unfold withTimestamp in *. simpl.
    rewrite IH. reflexivity.
Qed.

Lemma nonDecreasingb_spec l : nonDecreasingb l = true <-> nonDecreasing l.
Proof.
  unfold nonDecreasing. induction l as [|x l IH].
  - simpl. split; [constructor | reflexivity].
  - destruct l as [|y l].
    + simpl. split; [repeat constructor | reflexivity].
    + change (nonDecreasingb (x :: y :: l))
        with ((Timestamp x <=? Timestamp y) && nonDecreasingb (y :: l)).
      rewrite andb_true_iff, IH, Z.leb_le. split.
      * intros [Hxy Hs]. constructor; [exact Hs | constructor; exact Hxy].
      * intros Hs. inversion Hs as [|? ? Hl Hhd]; subst.
        inversion Hhd; subst. split; assumption.
Qed.

(** Appending an element that is not below the last keeps the order. *)
Lemma nonDecreasing_snoc l x :
  nonDecreasing l ->
  match rev l with
  | [] => True
  | y :: _ => Timestamp y <= Timestamp x
  end ->
  nonDecreasing (l ++ [x]).
Proof.
  unfold nonDecreasing. induction l as [|a l IH]; simpl; intros Hs Hlast.
  - repeat constructor.
  - inversion Hs as [|? ? Hl Hhd]; subst.
    destruct l as [|b l].
    + simpl in *. constructor; [repeat constructor | constructor; exact Hlast].
    + constructor.
      * apply IH; [exact Hl|].
        simpl in *. destruct (rev l ++ [b]) eqn:E.
        -- destruct (rev l); discriminate.
        -- simpl in Hlast. exact Hlast.
      * simpl. inversion Hhd; subst. constructor. assumption.
Qed.

(* ================================================================== *)
(** ** The admission check *)

Lemma Hour_value : Hour = 3600000000000.
Proof. reflexivity. Qed.

(** [Hours] is the exact quotient by an hour. *)
Lemma Hours_exact d : (Hours d == inject_Z d / inject_Z Hour)%Q.
Proof.
  unfold Hours.
  rewrite (Z.quot_rem' d Hour) at 3.
  rewrite inject_Z_plus, inject_Z_mult.
  field. rewrite Hour_value. discriminate.
Qed.

Lemma Qlt_bool_iff x y : Qlt_bool x y = true <-> (x < y)%Q.
Proof.
  unfold Qlt_bool. rewrite negb_true_iff. split.
  - intros H. apply Qnot_le_lt. intros Hle.
    apply Qle_bool_iff in Hle. congruence.
  - intros H. destruct (Qle_bool y x) eqn:E; [|reflexivity].
    apply Qle_bool_iff in E. exfalso. exact (Qlt_not_le _ _ H E).
Qed.

Lemma inject_lt_quotient k d :
  (inject_Z k < inject_Z d / inject_Z Hour)%Q <-> k * Hour < d.
Proof.
  rewrite Hour_value. unfold Qlt, Qdiv, Qmult, Qinv, inject_Z. simpl. lia.
Qed.

Lemma quotient_lt_inject k d :
  (inject_Z d / inject_Z Hour < inject_Z k)%Q <-> d < k * Hour.
Proof.
  rewrite Hour_value. unfold Qlt, Qdiv, Qmult, Qinv, inject_Z. simpl. lia.
Qed.


Lemma Sub_gt now t k :
  0 <= k < 2 ^ 62 -> (k < Sub now t <-> k < now - t).
Proof.
  intros Hk. unfold Sub, minDuration, maxDuration.
  destruct (Z.ltb_spec (now - t) (- 2 ^ 63));
    [|destruct (Z.ltb_spec (2 ^ 63 - 1) (now - t))]; lia.
Qed.

Lemma Sub_lt now t k :
  - 2 ^ 62 < k <= 0 -> (Sub now t < k <-> now - t < k).
Proof.
  intros Hk. unfold Sub, minDuration, maxDuration.
  destruct (Z.ltb_spec (now - t) (- 2 ^ 63));
    [|destruct (Z.ltb_spec (2 ^ 63 - 1) (now - t))]; lia.
Qed.

Lemma Hours_above k d :
  Qlt_bool (inject_Z k) (Hours d) = true <-> k * Hour < d.
Proof.
  rewrite Qlt_bool_iff. rewrite (Hours_exact d). apply inject_lt_quotient.
Qed.

Lemma Hours_below k d :
  Qlt_bool (Hours d) (inject_Z k) = true <-> d < k * Hour.
Proof.
  rewrite Qlt_bool_iff. rewrite (Hours_exact d). apply quotient_lt_inject.
Qed.

Lemma hasValidTime_false_iff now e :
  hasValidTime now e = false <->
  IsZero (Time e) = false /\
  ((inject_Z (24 * 14) < ageHours now e)%Q \/ (ageHours now e < inject_Z (-2))%Q).
Proof.
  unfold hasValidTime, ageHours.
  rewrite inject_lt_quotient, quotient_lt_inject.
  rewrite <- (Sub_gt now (Time e)) by (rewrite Hour_value; lia).
  rewrite <- (Sub_lt now (Time e)) by (rewrite Hour_value; lia).
  rewrite <- Hours_above, <- Hours_below, <- orb_true_iff.
  destruct (IsZero (Time e)); cbn [negb].
  - split; [discriminate | intros [H _]; discriminate].
  - destruct (Qlt_bool _ _ || Qlt_bool _ _).
    + split; intros _; [split|]; reflexivity.
    + split; [discriminate | intros [_ H]; discriminate].
Qed.

(** A rejected event leaves through the log line alone. *)
Lemma AddEvent_rejected now e ch :
  hasValidTime now e = false ->
  AddEvent now e ch = ([LogLine LvlE], Returned ch).
Proof. intros H. unfold AddEvent. rewrite H. reflexivity. Qed.

Lemma AddEventNonBlocking_rejected n now e ch :
  hasValidTime now e = false ->
  AddEventNonBlocking n now e ch = ([LogLine LvlE], Returned ch, []).
Proof. intros H. unfold AddEventNonBlocking. rewrite H. reflexivity. Qed.

(* ================================================================== *)
(** ** The converter *)

Section Converter.

Variable msgSizeLimit : Z.
Variable truncatedSuffix : gostring.

(** The slice expression [message[:msgSizeLimit-len(truncatedSuffix)]] has
    constant bounds: the package compiles only if the suffix fits. *)
Hypothesis suffix_fits : len truncatedSuffix <= msgSizeLimit.

Local Abbreviation truncate := (truncateMessage msgSizeLimit truncatedSuffix).
Local Abbreviation convert := (convertEvent msgSizeLimit truncatedSuffix).

Lemma convertEvent_message now e p :
  ileMessage (fst (convert now e p)) = truncate (Message e).
Proof.
  unfold convertEvent.
  destruct (IsZero (Time e)); [destruct (negb _)|]; reflexivity.
Qed.

Lemma truncateMessage_short m :
  len m <= msgSizeLimit -> truncate m = m.
Proof.
  intros H. unfold truncateMessage.
  destruct (Z.gtb_spec (len m) msgSizeLimit); [lia | reflexivity].
Qed.

Lemma truncateMessage_long m :
  len m > msgSizeLimit ->
  truncate m =
    firstn (Z.to_nat (msgSizeLimit - len truncatedSuffix)) m ++ truncatedSuffix.
Proof.
  intros H. unfold truncateMessage.
  destruct (Z.gtb_spec (len m) msgSizeLimit); [reflexivity | lia].
Qed.

Lemma truncateMessage_long_len m :
  len m > msgSizeLimit -> len (truncate m) = msgSizeLimit.
Proof.
  intros H. rewrite truncateMessage_long by exact H.
  rewrite len_app. unfold len in *. rewrite length_firstn. lia.
Qed.

Lemma truncateMessage_len m : len (truncate m) <= Z.max (len m) msgSizeLimit.
Proof.
  destruct (Z.le_gt_cases (len m) msgSizeLimit) as [H|H].
  - rewrite truncateMessage_short by exact H. lia.
  - rewrite truncateMessage_long_len by lia. lia.
Qed.

Lemma truncateMessage_bound m : len (truncate m) <= msgSizeLimit.
Proof.
  destruct (Z.le_gt_cases (len m) msgSizeLimit) as [H|H].
  - rewrite truncateMessage_short by exact H. exact H.
  - rewrite truncateMessage_long_len by lia. lia.
Qed.

(** C9.  The wire message of [convertEvent] is the message itself when it
    is at most [msgSizeLimit] bytes long; a longer message is cut to its
    first [msgSizeLimit - len(truncatedSuffix)] bytes followed by
    [truncatedSuffix], which is exactly [msgSizeLimit] bytes and ends with
    the suffix. *)
Theorem convertEvent_truncates now e p :
  let m := ileMessage (fst (convert now e p)) in
  (len (Message e) <= msgSizeLimit -> m = Message e) /\
  (len (Message e) > msgSizeLimit ->
     m = firstn (Z.to_nat (msgSizeLimit - len truncatedSuffix)) (Message e)
           ++ truncatedSuffix
     /\ len m = msgSizeLimit
     /\ exists front, m = front ++ truncatedSuffix).
Proof.
  cbv zeta. rewrite convertEvent_message. split; intros H.
  - apply truncateMessage_short, H.
  - split; [apply truncateMessage_long, H|].
    split; [apply truncateMessage_long_len, H|].
    eexists. apply truncateMessage_long, H.
Qed.

End Converter.

(** *** Timestamps *)

Lemma UnixNano_in_range t : - 2 ^ 63 <= t < 2 ^ 63 -> UnixNano t = t.
Proof.
  intros H. unfold UnixNano, wrap64.
  rewrite Z.mod_small by lia. lia.
Qed.

Section Timestamps.

Variable msgSizeLimit : Z.
Variable truncatedSuffix : gostring.

Local Abbreviation convert := (convertEvent msgSizeLimit truncatedSuffix).
Local Abbreviation replay := (afterHistory msgSizeLimit truncatedSuffix).

Lemma convert_lastValidTime now e p :
  lastValidTime (snd (convert now e p)) =
    if IsZero (Time e) then lastValidTime p else unixMilli (Time e).
Proof.
  unfold convertEvent.
  destruct (IsZero (Time e)); [destruct (negb _)|]; reflexivity.
Qed.

Lemma afterHistory_lastValidTime h p :
  lastValidTime (replay h p) = lastRecorded h (lastValidTime p).
Proof.
  revert p. induction h as [|[now e] h IH]; intros p; simpl.
  - reflexivity.
  - rewrite IH, convert_lastValidTime. reflexivity.
Qed.

Lemma lastRecorded_none h d : someValid h = false -> lastRecorded h d = d.
Proof.
  revert d. induction h as [|[now e] h IH]; intros d; simpl.
  - reflexivity.
  - intros H. apply orb_false_iff in H. destruct H as [He Hh].
    apply negb_false_iff in He. rewrite He. apply IH, Hh.
Qed.

(** C3, as the code has it.  After any history, the pusher's
    [lastValidTime] is the millisecond value of the most recent event that
    carried a time (0 if none did).  An event without a time gets
    [lastValidTime] when that is not 0 and the clock's milliseconds when it
    is 0; it leaves [lastValidTime] alone.  An event with a time gets the
    [int64] nanoseconds of its time divided by [1000000], rounded towards
    zero, which is recorded as [lastValidTime] and which is the floor of
    the milliseconds for a time from the epoch on. *)
Theorem convertEvent_timestamp g s (h : history) now e :
  let p := replay h (NewPusher g s) in
  let ce := fst (convert now e p) in
  let p' := snd (convert now e p) in
  lastValidTime p = lastRecorded h 0 /\
  (someValid h = false -> lastValidTime p = 0) /\
  (if IsZero (Time e)
   then Timestamp ce = (if lastValidTime p =? 0
                        then Z.quot (UnixNano now) 1000000
                        else lastValidTime p)
        /\ p' = p
   else Timestamp ce = Z.quot (UnixNano (Time e)) 1000000
        /\ lastValidTime p' = Timestamp ce
        /\ (0 <= Time e < 2 ^ 63 -> Timestamp ce = Time e / Millisecond)).
Proof.
  cbv zeta. set (p := replay h (NewPusher g s)).
  split; [apply afterHistory_lastValidTime|].
  split.
  { intros H. unfold p. rewrite afterHistory_lastValidTime.
    apply lastRecorded_none, H. }
  unfold convertEvent. destruct (IsZero (Time e)).
  - destruct (lastValidTime p =? 0); simpl; split; reflexivity.
  - simpl. split; [reflexivity|]. split; [reflexivity|].
    intros H. rewrite UnixNano_in_range by lia.
    apply Z.quot_div_nonneg; [lia | reflexivity].
Qed.

End Timestamps.

(* ================================================================== *)
(** ** Computations and what they guarantee *)

Section Computations.

Variable W : Type.

Lemma holds_ret {A} (P : obs -> Prop) (Q : A -> Prop) (a : A) :
  Q a -> holds P Q (ret (W := W) a).
Proof.
  intros Ha w. split; [constructor|].
  simpl. intros a' w' E. inversion E; subst. exact Ha.
Qed.

Lemma holds_cutOff {A} (P : obs -> Prop) (Q : A -> Prop) :
  holds P Q (cutOff (W := W) (A := A)).
Proof. intros w. split; [constructor | simpl; discriminate]. Qed.

Lemma holds_emit (P : obs -> Prop) (Q : unit -> Prop) o :
  P o -> Q tt -> holds P Q (emit (W := W) o).
Proof.
  intros Ho Hq w. split; [repeat constructor; exact Ho|].
  simpl. intros [] w' _. exact Hq.
Qed.

Lemma holds_bind {A B} (P : obs -> Prop) (Q : A -> Prop) (R : B -> Prop)
  (m : M W A) (f : A -> M W B) :
  holds P Q m -> (forall a, Q a -> holds P R (f a)) -> holds P R (bind m f).
Proof.
  intros Hm Hf w. unfold bind.
  destruct (Hm w) as [Ht Hq]. destruct (m w) as [t1 [[a w1]|]]; simpl in *.
  - specialize (Hf a (Hq a w1 eq_refl) w1). destruct Hf as [Ht2 Hr].
    destruct (f a w1) as [t2 r]; simpl in *. split.
    + apply Forall_app. split; assumption.
    + exact Hr.
  - split; [exact Ht | discriminate].
Qed.

Lemma holds_weaken {A} (P : obs -> Prop) (Q Q' : A -> Prop) (m : M W A) :
  holds P Q m -> (forall a, Q a -> Q' a) -> holds P Q' m.
Proof.
  intros Hm Himp w. destruct (Hm w) as [Ht Hq]. split; [exact Ht|].
  intros a w' E. apply Himp. exact (Hq a w' E).
Qed.

Variable Service : CloudWatchLogsService W.

Lemma holds_callPutLogEvents (P : obs -> Prop) p input :
  P (CallPutLogEvents p input) ->
  holds P (fun _ => True) (callPutLogEvents Service p input).
Proof.
  intros Hp w. unfold callPutLogEvents.
  destruct (PutLogEvents Service input w) as [r w1]. simpl.
  split; [repeat constructor; exact Hp | trivial].
Qed.

Lemma holds_createLogGroupAndStream (P : obs -> Prop) p :
  P (CallCreateLogGroup (Group p)) ->
  P (CallCreateLogStream (Group p) (Stream p)) ->
  holds P (fun _ => True) (createLogGroupAndStream Service p).
Proof.
  intros Hg Hs. unfold createLogGroupAndStream.
  assert (Hcs : holds P (fun _ : option error => True)
                  (callCreateLogStream Service (Group p) (Stream p))).
  { intros w. unfold callCreateLogStream.
    destruct (CreateLogStream Service (Group p) (Stream p) w). simpl.
    split; [repeat constructor; exact Hs | trivial]. }
  eapply holds_bind with (Q := fun _ => True).
  - intros w. unfold callCreateLogGroup.
    destruct (CreateLogGroup Service (Group p) w). simpl.
    split; [repeat constructor; exact Hg | trivial].
  - intros [[a|]|] _.
    + destruct (negb _); [apply holds_ret; trivial | exact Hcs].
    + apply holds_ret; trivial.
    + exact Hcs.
Qed.

Lemma holds_warnRejected (P : obs -> Prop) output :
  P (LogLine LvlW) -> holds P (fun _ => True) (warnRejected (W := W) output).
Proof.
  intros Hw. unfold warnRejected.
  assert (Hwi : forall A (o : option A),
             holds P (fun _ => True) (warnIf (W := W) o)).
  { intros A [x|]; simpl; [apply holds_emit | apply holds_ret]; trivial. }
  destruct (RejectedInfo output) as [info|]; [|apply holds_ret; trivial].
  eapply holds_bind; [apply Hwi|]. intros _ _.
  eapply holds_bind; [apply Hwi|]. intros _ _. apply Hwi.
Qed.

Lemma holds_invokeAll (P : obs -> Prop) cbs :
  (forall cb, In cb cbs -> P (InvokeDone cb)) ->
  holds P (fun _ => True) (invokeAll (W := W) cbs).
Proof.
  induction cbs as [|cb cbs IH]; simpl; intros H.
  - apply holds_ret. trivial.
  - eapply holds_bind with (Q := fun _ => True).
    + apply holds_emit; [apply H; left; reflexivity | trivial].
    + intros _ _. apply IH. intros c Hc. apply H. right. exact Hc.
Qed.

End Computations.

(* ================================================================== *)
(** ** Order of the events of a request *)

Lemma sortIfNeeded_ordered p :
  orderKept p -> nonDecreasing (events (sortIfNeeded p)).
Proof.
  unfold orderKept, sortIfNeeded. destruct (needSort p); simpl; intros H.
  - apply sortStable_sorted.
  - apply H. reflexivity.
Qed.

Lemma sortIfNeeded_events p :
  events (sortIfNeeded p) =
    if needSort p then sortStable (events p) else events p.
Proof. unfold sortIfNeeded. destruct (needSort p); reflexivity. Qed.

Lemma sortIfNeeded_idem p : sortIfNeeded (sortIfNeeded p) = sortIfNeeded p.
Proof.
  unfold sortIfNeeded. destruct (needSort p) eqn:E; simpl.
  - rewrite E. unfold set_events. simpl. rewrite sortStable_idem. reflexivity.
  - rewrite E. reflexivity.
Qed.

Lemma markNeedSort_flag ce p :
  needSort (markNeedSort ce p) =
    needSort p
    || match lastTimestamp p with
       | Some t => Timestamp ce <? t
       | None => false
       end.
Proof.
  unfold markNeedSort. destruct (lastTimestamp p) as [t|].
  - destruct (Timestamp ce <? t); simpl.
    + rewrite orb_true_r. reflexivity.
    + rewrite orb_false_r. reflexivity.
  - rewrite orb_false_r. reflexivity.
Qed.

Lemma markNeedSort_events ce p : events (markNeedSort ce p) = events p.
Proof.
  unfold markNeedSort. destruct (lastTimestamp p) as [t|];
    [destruct (Timestamp ce <? t)|]; reflexivity.
Qed.

Lemma append_orderKept ce e size p :
  orderKept p -> orderKept (appendEvent ce e size (markNeedSort ce p)).
Proof.
  unfold orderKept. simpl. rewrite markNeedSort_flag, markNeedSort_events.
  intros Hp Hflag. apply orb_false_iff in Hflag. destruct Hflag as [Hn Hl].
  apply nonDecreasing_snoc; [apply Hp, Hn|].
  unfold lastTimestamp in Hl. destruct (rev (events p)) as [|y l]; [trivial|].
  apply Z.ltb_ge in Hl. exact Hl.
Qed.

Section Order.

Variable msgSizeLimit : Z.
Variable truncatedSuffix : gostring.
Variable eventHeaderSize : Z.
Variable W : Type.
Variable Service : CloudWatchLogsService W.

Lemma convertEvent_frame now e p :
  let p' := snd (convertEvent msgSizeLimit truncatedSuffix now e p) in
  Group p' = Group p /\ Stream p' = Stream p /\ events p' = events p /\
  minT p' = minT p /\ maxT p' = maxT p /\
  doneCallbacks p' = doneCallbacks p /\ bufferredSize p' = bufferredSize p /\
  sequenceToken p' = sequenceToken p /\ needSort p' = needSort p.
Proof.
  unfold convertEvent.
  destruct (IsZero (Time e)); [destruct (negb _)|]; simpl; repeat split.
Qed.

Lemma send_ordered depth p :
  orderKept p -> holds putOrdered orderKept (send Service depth p).
Proof.
  revert p. induction depth as [|depth IH]; intros p Hp; simpl.
  - apply holds_cutOff.
  - pose proof (sortIfNeeded_ordered Hp) as Hs.
    set (p1 := sortIfNeeded p) in *.
    assert (Hk1 : orderKept p1) by (intros _; exact Hs).
    assert (Hr : forall q, orderKept (reset q)) by (intros q _; constructor).
    eapply holds_bind.
    { apply holds_callPutLogEvents. exact Hs. }
    intros [output|[[| expected | code]|]] _.
    + eapply holds_bind; [apply holds_warnRejected; exact I|]. intros _ _.
      eapply holds_bind; [apply holds_invokeAll; intros; exact I|]. intros _ _.
      eapply holds_bind; [apply holds_emit with (Q := fun _ => True); exact I|].
      intros _ _. apply holds_ret. apply Hr.
    + eapply holds_bind;
        [apply holds_createLogGroupAndStream; exact I|].
      intros [err|] _.
      * eapply holds_bind;
          [apply holds_emit with (Q := fun _ => True); exact I|].
        intros _ _. apply holds_ret. exact Hk1.
      * apply IH. exact Hk1.
    + eapply holds_bind;
        [apply holds_emit with (Q := fun _ => True); exact I|].
      intros _ _. destruct expected as [t|].
      * apply IH. exact Hk1.
      * eapply holds_bind;
          [apply holds_emit with (Q := fun _ => True); exact I|].
        intros _ _. apply holds_ret. exact Hk1.
    + eapply holds_bind;
        [apply holds_emit with (Q := fun _ => True); exact I|].
      intros _ _. apply holds_ret. apply Hr.
    + eapply holds_bind;
        [apply holds_emit with (Q := fun _ => True); exact I|].
      intros _ _. apply holds_ret. apply Hr.
Qed.

Lemma flushIf_ordered c depth p :
  orderKept p -> holds putOrdered orderKept (flushIf Service c depth p).
Proof.
  intros Hp. unfold flushIf. destruct c.
  - apply send_ordered, Hp.
  - apply holds_ret, Hp.
Qed.

Lemma onEvent_ordered depth now e p :
  orderKept p ->
  holds putOrdered orderKept
    (onEvent msgSizeLimit truncatedSuffix eventHeaderSize Service depth now e p).
Proof.
  intros Hp. unfold onEvent.
  eapply holds_bind with (Q := fun _ => True).
  { destruct (len (events p) =? 0);
      [apply holds_emit | apply holds_ret]; exact I. }
  intros _ _. eapply holds_bind; [apply flushIf_ordered, Hp|].
  intros p1 Hp1.
  pose proof (convertEvent_frame now e p1) as Hf. cbv zeta in Hf.
  destruct (convertEvent msgSizeLimit truncatedSuffix now e p1) as [ce p2].
  simpl in Hf. destruct Hf as (_ & _ & Hev & _ & _ & _ & _ & _ & Hns).
  assert (Hp2 : orderKept p2).
  { unfold orderKept. rewrite Hev, Hns. exact Hp1. }
  eapply holds_bind; [apply flushIf_ordered, Hp2|].
  intros p3 Hp3. apply holds_ret. apply append_orderKept, Hp3.
Qed.

Lemma start_ordered depth sigs p :
  orderKept p ->
  holds putOrdered orderKept
    (start msgSizeLimit truncatedSuffix eventHeaderSize Service depth sigs p).
Proof.
  revert p. induction sigs as [|[now e| |] sigs IH]; intros p Hp; simpl.
  - apply holds_ret, Hp.
  - eapply holds_bind; [apply onEvent_ordered, Hp|]. intros q Hq. apply IH, Hq.
  - eapply holds_bind; [apply flushIf_ordered, Hp|]. intros q Hq. apply IH, Hq.
  - apply flushIf_ordered, Hp.
Qed.

(** C4.  Whatever the loop receives and whatever the service answers, the
    events of every [PutLogEvents] request are non-decreasing by timestamp.
    [send] sorts stably when [needSort] is set and sends the buffer as it is
    otherwise; an append sets [needSort] exactly when the new timestamp is
    strictly below that of the last buffered event. *)
Theorem put_events_nonDecreasing depth sigs g s w :
  Forall putOrdered
    (fst (start msgSizeLimit truncatedSuffix eventHeaderSize Service
            depth sigs (NewPusher g s) w))
  /\ (forall p,
        LogEvents (putInput (sortIfNeeded p)) =
          if needSort p then sortStable (events p) else events p)
  /\ (forall l,
        nonDecreasing (sortStable l) /\ Permutation (sortStable l) l /\
        forall t, withTimestamp t (sortStable l) = withTimestamp t l)
  /\ (forall ce p,
        needSort (markNeedSort ce p) =
          needSort p
          || match lastTimestamp p with
             | Some t => Timestamp ce <? t
             | None => false
             end).
Proof.
  split.
  { apply (start_ordered depth sigs (p := NewPusher g s)).
    intros _. constructor. }
  split; [intros p; apply sortIfNeeded_events|].
  split.
  { intros l. split; [apply sortStable_sorted|].
    split; [apply sortStable_perm | intros t; apply sortStable_stable]. }
  intros ce p. apply markNeedSort_flag.
Qed.

End Order.

(* ================================================================== *)
(** ** The sender *)

Lemma reset_sortIfNeeded p : reset (sortIfNeeded p) = reset p.
Proof. unfold sortIfNeeded. destruct (needSort p); reflexivity. Qed.

Lemma sortIfNeeded_set_sequenceToken t p :
  sortIfNeeded (set_sequenceToken t p) = set_sequenceToken t (sortIfNeeded p).
Proof. unfold sortIfNeeded. simpl. destruct (needSort p); reflexivity. Qed.

Lemma sortIfNeeded_unflagged p : needSort p = false -> sortIfNeeded p = p.
Proof. intros H. unfold sortIfNeeded. rewrite H. reflexivity. Qed.

Section Sender.

Variable W : Type.
Variable Service : CloudWatchLogsService W.

(** Every [send] that is not cut off at once begins with the request. *)
Lemma send_begins depth p w :
  exists rest,
    fst (send Service (S depth) p w) =
      CallPutLogEvents (sortIfNeeded p) (putInput (sortIfNeeded p)) :: rest.
Proof.
  simpl. unfold bind at 1. unfold callPutLogEvents.
  destruct (PutLogEvents Service (putInput (sortIfNeeded p)) w) as [r w1].
  match goal with
  | |- context [match ?m with (_, _) => _ end] =>
      destruct m as [rest out]
  end.
  simpl. eexists. reflexivity.
Qed.

(** C6.  When [PutLogEvents] answers with an error that is not an AWS
    error, or with an AWS error other than [ResourceNotFoundException] and
    [InvalidSequenceTokenException], [send] logs the error and returns with
    the buffer reset (events, callbacks, size, [minT], [maxT], [needSort]);
    no [done] callback is invoked. *)
Theorem send_nonRecoverable depth p w err w1 :
  PutLogEvents Service (putInput (sortIfNeeded p)) w = (inr err, w1) ->
  nonRecoverable err ->
  send Service (S depth) p w =
    ([CallPutLogEvents (sortIfNeeded p) (putInput (sortIfNeeded p));
      LogLine LvlE],
     Some (reset p, w1))
  /\ existsb isDone (fst (send Service (S depth) p w)) = false
  /\ events (reset p) = [] /\ doneCallbacks (reset p) = []
  /\ bufferredSize (reset p) = 0
  /\ minT (reset p) = None /\ maxT (reset p) = None
  /\ needSort (reset p) = false.
Proof.
  intros Hput Herr.
  assert (E : send Service (S depth) p w =
    ([CallPutLogEvents (sortIfNeeded p) (putInput (sortIfNeeded p));
      LogLine LvlE], Some (reset p, w1))).
  { simpl. unfold bind at 1. unfold callPutLogEvents. rewrite Hput.
    destruct err as [[| expected | code]|]; simpl in Herr; try contradiction;
      cbn; rewrite reset_sortIfNeeded; reflexivity. }
  rewrite E. repeat split.
Qed.

(** The answer [InvalidSequenceTokenException] that names the expected
    token: the token is stored and the send is done again. *)
Lemma send_invalidToken_retry depth p w t w1 :
  PutLogEvents Service (putInput (sortIfNeeded p)) w =
    (inr (AwsError (InvalidSequenceTokenException (Some t))), w1) ->
  let p1 := sortIfNeeded p in
  let p2 := set_sequenceToken (Some t) p1 in
  send Service (S depth) p w =
    (CallPutLogEvents p1 (putInput p1) :: LogLine LvlW
       :: fst (send Service depth p2 w1),
     snd (send Service depth p2 w1)).
Proof.
  intros Hput. cbv zeta. simpl. unfold bind at 1. unfold callPutLogEvents.
  rewrite Hput. cbn.
  destruct (send Service depth
              (set_sequenceToken (Some t) (sortIfNeeded p)) w1) as [t2 r2].
  unfold bind. cbn. destruct r2 as [[a w2]|]; reflexivity.
Qed.

(** The answer [InvalidSequenceTokenException] without the expected token:
    [send] returns with what it has. *)
Lemma send_invalidToken_absent depth p w w1 :
  PutLogEvents Service (putInput (sortIfNeeded p)) w =
    (inr (AwsError (InvalidSequenceTokenException None)), w1) ->
  send Service (S depth) p w =
    ([CallPutLogEvents (sortIfNeeded p) (putInput (sortIfNeeded p));
      LogLine LvlW; LogLine LvlE],
     Some (sortIfNeeded p, w1)).
Proof.
  intros Hput. simpl. unfold bind at 1. unfold callPutLogEvents.
  rewrite Hput. reflexivity.
Qed.

(** C7, as the code has it.  On [InvalidSequenceTokenException] with the
    expected token, [send] stores the token and sends again at once: the
    next request carries the new token and the same events.  Without the
    expected token, [send] returns without invoking a callback and without
    dropping an event: callbacks, size, [minT], [maxT], [needSort] and the
    token are as before, and the events are the same events, in the order
    of the stable sort when [needSort] was set. *)
Theorem send_invalidSequenceToken depth p w expected w1 :
  PutLogEvents Service (putInput (sortIfNeeded p)) w =
    (inr (AwsError (InvalidSequenceTokenException expected)), w1) ->
  let p1 := sortIfNeeded p in
  match expected with
  | Some t =>
      let p2 := set_sequenceToken (Some t) p1 in
      (exists rest,
          fst (send Service (S (S depth)) p w) =
            CallPutLogEvents p1 (putInput p1) :: LogLine LvlW
              :: CallPutLogEvents p2 (putInput p2) :: rest)
      /\ sequenceToken p2 = Some t
      /\ SequenceToken (putInput p2) = Some t
      /\ LogEvents (putInput p2) = LogEvents (putInput p1)
      /\ doneCallbacks p2 = doneCallbacks p
  | None =>
      send Service (S depth) p w =
        ([CallPutLogEvents p1 (putInput p1); LogLine LvlW; LogLine LvlE],
         Some (p1, w1))
      /\ existsb isDone (fst (send Service (S depth) p w)) = false
      /\ events p1 = (if needSort p then sortStable (events p) else events p)
      /\ Permutation (events p1) (events p)
      /\ doneCallbacks p1 = doneCallbacks p
      /\ bufferredSize p1 = bufferredSize p
      /\ minT p1 = minT p /\ maxT p1 = maxT p
      /\ needSort p1 = needSort p
      /\ sequenceToken p1 = sequenceToken p
  end.
Proof.
  intros Hput. cbv zeta. destruct expected as [t|].
  - split.
    + rewrite (send_invalidToken_retry (S depth) p w Hput). cbv zeta.
      destruct (send_begins depth
                  (set_sequenceToken (Some t) (sortIfNeeded p)) w1)
        as [rest Hrest].
      rewrite sortIfNeeded_set_sequenceToken, sortIfNeeded_idem in Hrest.
      exists rest. cbn [fst]. rewrite Hrest. reflexivity.
    + unfold sortIfNeeded. destruct (needSort p); repeat split.
  - rewrite (send_invalidToken_absent depth p w Hput).
    unfold sortIfNeeded. destruct (needSort p) eqn:E; simpl; repeat split;
      try exact E; try apply Permutation_refl; apply sortStable_perm.
Qed.

Lemma createLogGroupAndStream_trace p w :
  Forall isCreateCall (fst (createLogGroupAndStream Service p w)).
Proof.
  apply (holds_createLogGroupAndStream Service isCreateCall p I I w).
Qed.

(** The answer [ResourceNotFoundException] with the group and the stream
    created: the send is done again from the same pusher. *)
Lemma send_notFound_retry depth p w w1 tr2 w2 :
  PutLogEvents Service (putInput (sortIfNeeded p)) w =
    (inr (AwsError ResourceNotFoundException), w1) ->
  createLogGroupAndStream Service (sortIfNeeded p) w1 =
    (tr2, Some (None, w2)) ->
  let p1 := sortIfNeeded p in
  send Service (S depth) p w =
    (CallPutLogEvents p1 (putInput p1) :: tr2
       ++ fst (send Service depth p1 w2),
     snd (send Service depth p1 w2)).
Proof.
  intros Hput Hcreate. cbv zeta. simpl. unfold bind at 1.
  unfold callPutLogEvents. rewrite Hput. cbn. unfold bind at 1.
  rewrite Hcreate.
  destruct (send Service depth (sortIfNeeded p) w2) as [t3 r3].
  reflexivity.
Qed.

(** The same answer with the creation failed: [send] returns with what it
    has. *)
Lemma send_notFound_failed depth p w w1 tr2 err w2 :
  PutLogEvents Service (putInput (sortIfNeeded p)) w =
    (inr (AwsError ResourceNotFoundException), w1) ->
  createLogGroupAndStream Service (sortIfNeeded p) w1 =
    (tr2, Some (Some err, w2)) ->
  let p1 := sortIfNeeded p in
  send Service (S depth) p w =
    (CallPutLogEvents p1 (putInput p1) :: tr2 ++ [LogLine LvlE],
     Some (p1, w2)).
Proof.
  intros Hput Hcreate. cbv zeta. simpl. unfold bind at 1.
  unfold callPutLogEvents. rewrite Hput. cbn. unfold bind at 1.
  rewrite Hcreate. reflexivity.
Qed.

(** C10.  When [PutLogEvents] answers [ResourceNotFoundException] and the
    group and the stream get created, the next thing after the creation
    calls is the same request again, made from the same pusher: the same
    [sequenceToken], events, callbacks, size and [needSort] as at the failed
    attempt. *)
Theorem send_notFound_same_request depth p w w1 tr2 w2 :
  PutLogEvents Service (putInput (sortIfNeeded p)) w =
    (inr (AwsError ResourceNotFoundException), w1) ->
  createLogGroupAndStream Service (sortIfNeeded p) w1 =
    (tr2, Some (None, w2)) ->
  let p1 := sortIfNeeded p in
  (exists rest,
      fst (send Service (S (S depth)) p w) =
        CallPutLogEvents p1 (putInput p1) :: tr2
          ++ CallPutLogEvents p1 (putInput p1) :: rest)
  /\ Forall isCreateCall tr2
  /\ SequenceToken (putInput p1) = sequenceToken p
  /\ doneCallbacks p1 = doneCallbacks p
  /\ bufferredSize p1 = bufferredSize p
  /\ needSort p1 = needSort p.
Proof.
  intros Hput Hcreate. cbv zeta. split.
  - rewrite (send_notFound_retry (S depth) p w Hput Hcreate). cbv zeta.
    destruct (send_begins depth (sortIfNeeded p) w2) as [rest Hrest].
    rewrite sortIfNeeded_idem in Hrest.
    exists rest. cbn [fst]. rewrite Hrest. reflexivity.
  - split.
    + pose proof (createLogGroupAndStream_trace (sortIfNeeded p) w1) as H.
      rewrite Hcreate in H. exact H.
    + unfold sortIfNeeded. destruct (needSort p) eqn:E; simpl; repeat split;
        exact E.
Qed.

End Sender.

(* ================================================================== *)
(** ** Admission *)

Section Admission.

Variable msgSizeLimit : Z.
Variable truncatedSuffix : gostring.
Variable eventHeaderSize : Z.
Variable W : Type.
Variable Service : CloudWatchLogsService W.

Local Abbreviation step :=
  (sysStep msgSizeLimit truncatedSuffix eventHeaderSize Service).
Local Abbreviation run :=
  (sysRun msgSizeLimit truncatedSuffix eventHeaderSize Service).

(** A rejected submission changes nothing and shows as one log line. *)
Lemma sysStep_rejected depth now e st :
  hasValidTime now e = false ->
  step depth (CallAddEvent now e) st = ([LogLine LvlE], Some st) /\
  step depth (CallAddEventNonBlocking now e) st = ([LogLine LvlE], Some st).
Proof.
  intros H. unfold sysStep.
  rewrite (AddEvent_rejected now e _ H), (AddEventNonBlocking_rejected 3 now e _ H).
  destruct st; split; reflexivity.
Qed.

(** C5.  An event with the zero instant is accepted; any other is rejected
    exactly when its age [now - e.time] is above [24*14] hours or below
    [-2] hours.  A rejected event is logged and dropped by both entry
    points: the channel is as before, so that everything the producers and
    the worker do afterwards is what they would have done without the
    submission, and the submission itself shows neither a service call nor
    a [done] callback. *)
Theorem rejected_event_discarded now e :
  (hasValidTime now e = false <->
     IsZero (Time e) = false /\
     ((inject_Z (24 * 14) < ageHours now e)%Q \/
      (ageHours now e < inject_Z (-2))%Q))
  /\ (hasValidTime now e = false ->
      forall ch n depth moves st,
        AddEvent now e ch = ([LogLine LvlE], Returned ch)
        /\ AddEventNonBlocking n now e ch = ([LogLine LvlE], Returned ch, [])
        /\ run depth (CallAddEvent now e :: moves) st =
             (LogLine LvlE :: fst (run depth moves st),
              snd (run depth moves st))
        /\ run depth (CallAddEventNonBlocking now e :: moves) st =
             (LogLine LvlE :: fst (run depth moves st),
              snd (run depth moves st))).
Proof.
  split; [apply hasValidTime_false_iff|].
  intros H ch n depth moves st.
  split; [apply AddEvent_rejected, H|].
  split; [apply AddEventNonBlocking_rejected, H|].
  destruct (sysStep_rejected depth now e st H) as [H1 H2].
  cbn [sysRun]. rewrite H1, H2.
  destruct (run depth moves st) as [tr r]. split; reflexivity.
Qed.

End Admission.

(* ================================================================== *)
(** ** The non-blocking entry point *)

(** Left alone with a full channel, the call takes out the oldest pending
    event and puts its own at the end. *)
Lemma nbLoop_full_alone n e x rest :
  len (x :: rest) = eventsChCap ->
  nbLoop (3 + n) e AtSelect (x :: rest) = (Returned (rest ++ [e]), [x]).
Proof.
  intros Hfull. simpl. unfold chSend.
  rewrite Hfull, Z.ltb_irrefl. simpl. unfold chSend.
  assert (Hrest : (len rest <? eventsChCap) = true).
  { apply Z.ltb_lt. unfold len in *. rewrite <- Hfull.
    cbn [List.length]. lia. }
  rewrite Hrest. reflexivity.
Qed.

(** With room in the channel the call puts its event at the end. *)
Lemma nbLoop_room n e ch :
  len ch < eventsChCap ->
  nbLoop (S n) e AtSelect ch = (Returned (ch ++ [e]), []).
Proof.
  intros Hroom. simpl. unfold chSend.
  apply Z.ltb_lt in Hroom. rewrite Hroom. reflexivity.
Qed.

(** At its receive the producer waits for as long as the channel is
    empty. *)
Lemma nbStep_waits e : nbStep e AtReceive [] = None.
Proof. reflexivity. Qed.

(* ================================================================== *)
(** ** Runs on concrete inputs *)

(** C8, a run of the code.  The channel is full and the event is valid.
    The producer's [select] finds no room and takes the [default] branch;
    before it gets to the receive there, the worker receives the hundred
    pending events.  The producer is then at a receive on an empty channel:
    it cannot move, its event is not in the channel, and nothing it took
    out is lost yet.  Only another producer's send lets it go on (and that
    event is the one it then throws away). *)
Theorem nonBlocking_blocks_on_drained_channel :
  hasValidTime t0 oneMore = true /\
  len fullChan = eventsChCap /\
  exists st,
    raceRun oneMore drainSchedule (mkRace (NbAt AtSelect) fullChan [] [])
      = Some st
    /\ rcAt st = NbAt AtReceive
    /\ rcChan st = []
    /\ rcReceived st = fullChan
    /\ rcEvicted st = []
    /\ raceStep oneMore TheProducer st = None.
Proof.
  split; [vm_compute; reflexivity|].
  split; [vm_compute; reflexivity|].
  eexists. split; [vm_compute; reflexivity|].
  repeat split.
Qed.

(** C1, a run of the code.  The stream is missing and may not be created.
    Five valid events of 250 000 bytes arrive.  The fifth would take the
    buffer over [reqSizeLimit]: [send] is called with four events and
    1 000 104 bytes, and returns with the buffer kept.  The fifth event is
    appended all the same, and the request made when the timer fires finds
    five events and 1 250 130 bytes buffered. *)
Theorem oversize_request_reached :
  forallb (fun s => match s with
                    | EventReceived now e => hasValidTime now e
                    | _ => true
                    end) oversizeSignals = true
  /\ putSizes (fst oversizeRun) = [(1000104, 4); (1250130, 5)]
  /\ reqSizeLimit < 1250130.
Proof.
  split; [vm_compute; reflexivity|].
  split; [vm_compute; reflexivity|].
  reflexivity.
Qed.

(** C2, a run of the code.  Same service.  An event 25 hours old and a
    fresh one arrive, both valid.  The second is more than 24 hours from
    [minT]: [send] is called (span 0) and returns with the buffer kept.
    The fresh event is appended all the same, and the request made when the
    timer fires finds [maxT - minT] at 25 hours. *)
Theorem overlong_span_reached :
  forallb (fun s => match s with
                    | EventReceived now e => hasValidTime now e
                    | _ => true
                    end) spanSignals = true
  /\ putSpans (fst spanRun) = [Some 0; Some (25 * Hour)]
  /\ 24 * Hour < 25 * Hour.
Proof.
  split; [vm_compute; reflexivity|].
  split; [vm_compute; reflexivity|].
  reflexivity.
Qed.

(** C3 as stated fails twice.  After an event stamped with the epoch (a
    valid time, whose milliseconds are 0), an event without a time gets the
    clock's milliseconds and not [lastValidTime].  And the milliseconds of
    an instant before the epoch are rounded towards zero, not down. *)
Lemma lastValidTime_zero_reads_as_unset :
  let h := [(0, epochEvent)] in
  let p := afterHistory specMsgSizeLimit someSuffix h
             (NewPusher "group" "stream") in
  (hasValidTime 0 epochEvent = true
   /\ someValid h = true
   /\ IsZero (Time untimedEvent) = true
   /\ lastValidTime p = 0
   /\ Timestamp (fst (convertEvent specMsgSizeLimit someSuffix
                        (5 * Second) untimedEvent p)) = 5000
   /\ 5000 <> lastValidTime p)
  /\ (IsZero (Time preEpochEvent) = false
      /\ Timestamp (fst (convertEvent specMsgSizeLimit someSuffix
                           0 preEpochEvent (NewPusher "group" "stream"))) = 0
      /\ Time preEpochEvent / Millisecond = -1).
Proof.
  cbv zeta. split.
  - repeat split; try (vm_compute; reflexivity). vm_compute. discriminate.
  - repeat split; vm_compute; reflexivity.
Qed.

(** C7 as stated fails: with [needSort] set, the buffer that [send] returns
    with after [InvalidSequenceTokenException] without the expected token is
    not the buffer it was called with; the events have been sorted. *)
Lemma send_without_token_reorders :
  exists p w p' w',
    snd outOfOrderRun = Some (p, w)
    /\ needSort p = true
    /\ map Timestamp (events p) = [1700000000003; 1700000000001]
    /\ snd (send scripted 1 p tokenUnknown) = Some (p', w')
    /\ map Timestamp (events p') = [1700000000001; 1700000000003]
    /\ events p' <> events p.
Proof.
  do 4 eexists.
  split; [vm_compute; reflexivity|].
  split; [reflexivity|].
  split; [reflexivity|].
  split; [vm_compute; reflexivity|].
  split; [reflexivity|].
  intros H. inversion H.
Qed.

Lemma unsortedPusher_reached :
  snd outOfOrderRun = Some (unsortedPusher, mkScript [] [] []).
Proof. vm_compute. reflexivity. Qed.

(** *** The theorems above at concrete inputs *)

Lemma convertEvent_truncates_witness :
  len (ileMessage (fst (convertEvent specMsgSizeLimit someSuffix t0 longEvent
                          (NewPusher "group" "stream")))) = specMsgSizeLimit.
Proof.
  assert (Hfit : len someSuffix <= specMsgSizeLimit)
    by (vm_compute; discriminate).
  assert (Hlong : len (Message longEvent) > specMsgSizeLimit)
    by (vm_compute; reflexivity).
  pose proof (@convertEvent_truncates specMsgSizeLimit someSuffix Hfit
                t0 longEvent (NewPusher "group" "stream")) as H.
  cbv zeta in H. destruct H as [_ H].
  exact (proj1 (proj2 (H Hlong))).
Defined.

Lemma convertEvent_timestamp_witness :
  lastValidTime (afterHistory specMsgSizeLimit someSuffix
                   [(t0, untimedEvent)] (NewPusher "group" "stream")) = 0
  /\ Timestamp (fst (convertEvent specMsgSizeLimit someSuffix t0 freshEvent
                       (afterHistory specMsgSizeLimit someSuffix
                          [(t0, untimedEvent)] (NewPusher "group" "stream"))))
     = Time freshEvent / Millisecond.
Proof.
  pose proof (convertEvent_timestamp specMsgSizeLimit someSuffix
                "group" "stream" [(t0, untimedEvent)] t0 freshEvent) as H.
  cbv zeta in H. destruct H as (_ & Hnone & Hts).
  split; [apply Hnone; reflexivity|].
  assert (E : IsZero (Time freshEvent) = false) by reflexivity.
  rewrite E in Hts. destruct Hts as (_ & _ & Hfloor).
  apply Hfloor. split; [vm_compute; discriminate | vm_compute; reflexivity].
Defined.

Lemma rejected_event_discarded_witness :
  hasValidTime t0 staleEvent = false /\
  AddEvent t0 staleEvent fullChan = ([LogLine LvlE], Returned fullChan).
Proof.
  assert (H : hasValidTime t0 staleEvent = false) by (vm_compute; reflexivity).
  split; [exact H|].
  destruct (rejected_event_discarded specMsgSizeLimit someSuffix
              specEventHeaderSize scripted t0 staleEvent) as [_ Hdrop].
  exact (proj1 (Hdrop H fullChan 0%nat 0%nat []
                  (mkSystem fullChan unsortedPusher (mkScript [] [] [])))).
Defined.

Lemma send_nonRecoverable_witness :
  send scripted 1 unsortedPusher (mkScript [inr NonAwsError] [] []) =
    ([CallPutLogEvents (sortIfNeeded unsortedPusher)
        (putInput (sortIfNeeded unsortedPusher));
      LogLine LvlE],
     Some (reset unsortedPusher, mkScript [] [] [])).
Proof.
  apply (@send_nonRecoverable script scripted 0 unsortedPusher
           (mkScript [inr NonAwsError] [] []) NonAwsError
           (mkScript [] [] []) eq_refl I).
Defined.

Lemma send_invalidSequenceToken_witness :
  send scripted 1 unsortedPusher tokenUnknown =
    ([CallPutLogEvents (sortIfNeeded unsortedPusher)
        (putInput (sortIfNeeded unsortedPusher));
      LogLine LvlW; LogLine LvlE],
     Some (sortIfNeeded unsortedPusher, mkScript [] [] [])).
Proof.
  apply (@send_invalidSequenceToken script scripted 0 unsortedPusher
           tokenUnknown None (mkScript [] [] []) eq_refl).
Defined.

Lemma send_notFound_same_request_witness :
  exists rest,
    fst (send scripted 2 unsortedPusher
           (mkScript [inr (AwsError ResourceNotFoundException)] [] [])) =
      CallPutLogEvents (sortIfNeeded unsortedPusher)
        (putInput (sortIfNeeded unsortedPusher))
      :: [CallCreateLogGroup "group"; CallCreateLogStream "group" "stream"]
      ++ CallPutLogEvents (sortIfNeeded unsortedPusher)
           (putInput (sortIfNeeded unsortedPusher)) :: rest.
Proof.
  apply (@send_notFound_same_request script scripted 0 unsortedPusher
           (mkScript [inr (AwsError ResourceNotFoundException)] [] [])
           (mkScript [] [] [])
           [CallCreateLogGroup "group"; CallCreateLogStream "group" "stream"]
           (mkScript [] [] []) eq_refl eq_refl).
Defined.

(* ================================================================== *)
(** ** What [send] keeps, given what the service may answer *)

Section Keeping.

Variable W : Type.
Variable Service : CloudWatchLogsService W.

(** [P] for the observations, [Pre] for the pusher [send] is called with,
    [Post] for the pusher it returns with; [K] and [C] bound the answers of
    [PutLogEvents] and the results of [createLogGroupAndStream]. *)
Variable P : obs -> Prop.
Variables Pre Post : pusher -> Prop.
Variable K : PutLogEventsOutput + error -> Prop.
Variable C : option error -> Prop.

Hypothesis answers_K : forall input w, K (fst (PutLogEvents Service input w)).
Hypothesis creation_C :
  forall p w a w',
    snd (createLogGroupAndStream Service p w) = Some (a, w') -> C a.
Hypothesis P_other :
  forall o, match o with CallPutLogEvents _ _ => True | _ => P o end.
Hypothesis P_put :
  forall p, Pre p ->
    P (CallPutLogEvents (sortIfNeeded p) (putInput (sortIfNeeded p))).
Hypothesis Pre_sort : forall p, Pre p -> Pre (sortIfNeeded p).
Hypothesis Pre_token : forall p t, Pre p -> Pre (set_sequenceToken t p).
Hypothesis keep_token :
  K (inr (AwsError (InvalidSequenceTokenException None))) ->
  forall p, Pre p -> Post p.
Hypothesis keep_create :
  forall err, C (Some err) -> forall p, Pre p -> Post p.
Hypothesis Post_reset : forall p, Post (reset p).

Lemma callPutLogEvents_answer p input :
  P (CallPutLogEvents p input) ->
  holds P K (callPutLogEvents Service p input).
Proof.
  intros Hp w. unfold callPutLogEvents.
  pose proof (answers_K input w) as Hk.
  destruct (PutLogEvents Service input w) as [r w1]. simpl in *.
  split; [repeat constructor; exact Hp|].
  intros a w' E. inversion E; subst. exact Hk.
Qed.

Lemma createLogGroupAndStream_result p :
  holds P C (createLogGroupAndStream Service p).
Proof.
  intros w. split.
  - apply (holds_createLogGroupAndStream Service P p
             (P_other (CallCreateLogGroup (Group p)))
             (P_other (CallCreateLogStream (Group p) (Stream p))) w).
  - intros a w' E. exact (creation_C p w E).
Qed.

Lemma send_keeps depth p : Pre p -> holds P Post (send Service depth p).
Proof.
  revert p. induction depth as [|depth IH]; intros p Hp; simpl.
  - apply holds_cutOff.
  - pose proof (Pre_sort Hp) as Hp1. set (p1 := sortIfNeeded p) in *.
    assert (Hlog : forall l (Q : unit -> Prop), Q tt ->
                   holds P Q (emit (W := W) (LogLine l))).
    { intros l Q Hq. apply holds_emit; [apply (P_other (LogLine l)) | exact Hq]. }
    eapply holds_bind.
    { apply callPutLogEvents_answer. apply P_put, Hp. }
    intros [output|[[| expected | code]|]] Hk.
    + eapply holds_bind;
        [apply holds_warnRejected; apply (P_other (LogLine LvlW))|].
      intros _ _.
      eapply holds_bind;
        [apply holds_invokeAll; intros cb _; apply (P_other (InvokeDone cb))|].
      intros _ _.
      eapply holds_bind;
        [apply holds_emit with (Q := fun _ => True);
         [apply (P_other RuntimeGC) | exact I]|].
      intros _ _. apply holds_ret, Post_reset.
    + eapply holds_bind; [apply createLogGroupAndStream_result|].
      intros [err|] Hc.
      * eapply holds_bind; [apply Hlog with (Q := fun _ => True); exact I|].
        intros _ _. apply holds_ret. exact (keep_create Hc Hp1).
      * apply IH, Hp1.
    + eapply holds_bind; [apply Hlog with (Q := fun _ => True); exact I|].
      intros _ _. destruct expected as [t|].
      * apply IH, Pre_token, Hp1.
      * eapply holds_bind; [apply Hlog with (Q := fun _ => True); exact I|].
        intros _ _. apply holds_ret. exact (keep_token Hk Hp1).
    + eapply holds_bind; [apply Hlog with (Q := fun _ => True); exact I|].
      intros _ _. apply holds_ret, Post_reset.
    + eapply holds_bind; [apply Hlog with (Q := fun _ => True); exact I|].
      intros _ _. apply holds_ret, Post_reset.
Qed.

End Keeping.

(* ================================================================== *)
(** ** The shape of the buffer is kept *)

Lemma sortStable_len l : len (sortStable l) = len l.
Proof.
  unfold len. rewrite (Permutation_length (sortStable_perm l)). reflexivity.
Qed.

Lemma sortStable_nil l : sortStable l = [] -> l = [].
Proof.
  intros H. apply len_nil_iff. rewrite <- sortStable_len, H. reflexivity.
Qed.

Lemma spanExceeded_set p et :
  spanExceeded et p = true -> minT p <> None \/ maxT p <> None.
Proof.
  unfold spanExceeded. destruct (minT p), (maxT p); simpl; intros H;
    try discriminate; (left; discriminate) || (right; discriminate).
Qed.

Section ShapeKept.

Variable msgSizeLimit : Z.
Variable truncatedSuffix : gostring.
Variable eventHeaderSize : Z.
Variable W : Type.
Variable Service : CloudWatchLogsService W.

Local Abbreviation size := (eventSize eventHeaderSize).
Local Abbreviation total := (sumSizes eventHeaderSize).
Local Abbreviation wf := (wellFormed eventHeaderSize).

Lemma sumSizes_app l1 l2 : total (l1 ++ l2) = total l1 + total l2.
Proof. induction l1 as [|x l1 IH]; simpl; [reflexivity | rewrite IH; lia]. Qed.

Lemma sumSizes_perm l l' : Permutation l l' -> total l = total l'.
Proof. intros H. induction H; simpl; lia. Qed.

Lemma wellFormed_reset p : wf (reset p).
Proof. unfold wellFormed. simpl. repeat split. Qed.

Lemma wellFormed_sort p : wf p -> wf (sortIfNeeded p).
Proof.
  unfold sortIfNeeded. destruct (needSort p); [|trivial].
  unfold wellFormed. simpl. intros (Hl & Hs & Hm).
  split; [rewrite sortStable_len; exact Hl|].
  split; [rewrite (sumSizes_perm (sortStable_perm (events p))); exact Hs|].
  destruct (events p) as [|x l] eqn:E.
  - exact Hm.
  - destruct (sortStable (x :: l)) eqn:E'; [|exact Hm].
    apply sortStable_nil in E'. discriminate.
Qed.

Lemma sortIfNeeded_nonempty p : events p <> [] -> events (sortIfNeeded p) <> [].
Proof.
  rewrite sortIfNeeded_events. destruct (needSort p); [|trivial].
  intros H E. apply H, sortStable_nil, E.
Qed.

Lemma wellFormed_append ce e p :
  wf p -> wf (appendEvent ce e (size ce) (markNeedSort ce p)).
Proof.
  assert (Hmk : forall q, wf q -> wf (markNeedSort ce q)).
  { intros q. unfold markNeedSort.
    destruct (lastTimestamp q) as [t|]; [destruct (Timestamp ce <? t)|];
      trivial. }
  intros Hp. apply Hmk in Hp. set (q := markNeedSort ce p) in *.
  destruct Hp as (Hl & Hs & Hm). unfold wellFormed, appendEvent. simpl.
  split; [rewrite !len_app, Hl; reflexivity|].
  split; [rewrite sumSizes_app, Hs; simpl; lia|].
  destruct (events q) as [|x l]; simpl.
  - destruct Hm as [Ha Hb]. rewrite Ha, Hb.
    exists (Time e), (Time e). repeat split. lia.
  - destruct Hm as (a & b & Ha & Hb & Hab). rewrite Ha, Hb.
    unfold After, Before.
    destruct (Z.ltb_spec (Time e) a), (Z.ltb_spec b (Time e));
      eexists; eexists; repeat split; lia.
Qed.

(** With [strict], the suffix fits in the message limit and one message of
    that size with its header fits in a request. *)
Variable strict : bool.
Hypothesis strict_sizes :
  strict = true ->
  len truncatedSuffix <= msgSizeLimit /\
  msgSizeLimit + eventHeaderSize <= reqSizeLimit.

Local Abbreviation ok := (sendable eventHeaderSize strict).
Local Abbreviation putOk := (putSendable eventHeaderSize strict).

Lemma send_sendable depth p :
  ok p -> holds putOk wf (send Service depth p).
Proof.
  intros Hok.
  apply (@send_keeps W Service putOk ok wf (fun _ => True) (fun _ => True)).
  - intros; exact I.
  - intros; exact I.
  - intros [ | | | | | | ]; intros; exact I.
  - intros q [Hq Hn]. simpl. split; [|reflexivity].
    split; [apply wellFormed_sort, Hq|].
    intros Hs. apply sortIfNeeded_nonempty, Hn, Hs.
  - intros q [Hq Hn].
    split; [apply wellFormed_sort, Hq|].
    intros Hs. apply sortIfNeeded_nonempty, Hn, Hs.
  - intros q t [Hq Hn]. split; assumption.
  - intros _ q [Hq _]. exact Hq.
  - intros err _ q [Hq _]. exact Hq.
  - apply wellFormed_reset.
  - exact Hok.
Qed.

Lemma flushIf_sendable c depth p :
  wf p -> (c = true -> strict = true -> events p <> []) ->
  holds putOk wf (flushIf Service c depth p).
Proof.
  intros Hwf Hc. unfold flushIf. destruct c.
  - apply send_sendable. split; [exact Hwf | apply Hc; reflexivity].
  - apply holds_ret, Hwf.
Qed.

Lemma onEvent_sendable depth now e p :
  wf p ->
  holds putOk wf
    (onEvent msgSizeLimit truncatedSuffix eventHeaderSize Service depth now e p).
Proof.
  intros Hp. unfold onEvent.
  eapply holds_bind with (Q := fun _ => True).
  { destruct (len (events p) =? 0);
      [apply holds_emit | apply holds_ret]; exact I. }
  intros _ _. eapply holds_bind.
  { apply flushIf_sendable; [exact Hp|].
    intros Hc _ E. apply spanExceeded_set in Hc.
    destruct Hp as (_ & _ & Hm). rewrite E in Hm. destruct Hm as [Ha Hb].
    destruct Hc; contradiction. }
  intros p1 Hp1.
  pose proof (convertEvent_frame msgSizeLimit truncatedSuffix now e p1) as Hf.
  pose proof (convertEvent_message msgSizeLimit truncatedSuffix now e p1) as Hmsg.
  cbv zeta in Hf.
  destruct (convertEvent msgSizeLimit truncatedSuffix now e p1) as [ce p2].
  simpl in Hf, Hmsg.
  destruct Hf as (_ & _ & Hev & Hmin & Hmax & Hcb & Hsz & _ & _).
  assert (Hp2 : wf p2).
  { unfold wellFormed. rewrite Hev, Hmin, Hmax, Hcb, Hsz. exact Hp1. }
  eapply holds_bind.
  { apply flushIf_sendable; [exact Hp2|].
    intros Hc Hs E.
    destruct (strict_sizes Hs) as [Hfit Hone].
    destruct Hp2 as (_ & Hsum & _). rewrite E in Hsum. simpl in Hsum.
    rewrite E, Hsum in Hc. apply orb_true_iff in Hc. destruct Hc as [Hc|Hc].
    - apply Z.gtb_lt in Hc.
      pose proof (@truncateMessage_bound msgSizeLimit truncatedSuffix Hfit
                    (Message e)) as Hb.
      rewrite Hmsg in Hc. lia.
    - discriminate. }
  intros p3 Hp3. apply holds_ret. apply wellFormed_append, Hp3.
Qed.

Lemma start_sendable depth sigs p :
  wf p ->
  holds putOk wf
    (start msgSizeLimit truncatedSuffix eventHeaderSize Service depth sigs p).
Proof.
  assert (Hflush : forall q, wf q ->
            holds putOk wf (flushIf Service (0 <? len (events q)) depth q)).
  { intros q Hq. apply flushIf_sendable; [exact Hq|].
    intros Hc _ E. rewrite E in Hc. discriminate. }
  revert p. induction sigs as [|[now e| |] sigs IH]; intros p Hp; simpl.
  - apply holds_ret, Hp.
  - eapply holds_bind; [apply onEvent_sendable, Hp|]. intros q Hq. apply IH, Hq.
  - eapply holds_bind; [apply Hflush, Hp|]. intros q Hq. apply IH, Hq.
  - apply Hflush, Hp.
Qed.

End ShapeKept.

Section ShapeTheorems.

Variable msgSizeLimit : Z.
Variable truncatedSuffix : gostring.
Variable eventHeaderSize : Z.
Variable W : Type.
Variable Service : CloudWatchLogsService W.

Local Abbreviation loop :=
  (start msgSizeLimit truncatedSuffix eventHeaderSize Service).

Lemma start_wellFormed depth sigs g s :
  holds (putSendable eventHeaderSize false) (wellFormed eventHeaderSize)
    (loop depth sigs (NewPusher g s)).
Proof.
  apply start_sendable.
  - discriminate.
  - apply (wellFormed_reset eventHeaderSize (NewPusher g s)).
Qed.

(** X1.  Events and callbacks stay in parallel: at every [PutLogEvents] call and
    whenever the loop is between two signals, there are as many callbacks
    as events, whatever the service answers. *)
Theorem callbacks_parallel_to_events depth sigs g s w :
  Forall (fun o => match o with
                   | CallPutLogEvents p input =>
                       len (LogEvents input) = len (doneCallbacks p)
                   | _ => True
                   end)
    (fst (loop depth sigs (NewPusher g s) w))
  /\ (forall p w', snd (loop depth sigs (NewPusher g s) w) = Some (p, w') ->
        len (events p) = len (doneCallbacks p)).
Proof.
  destruct (start_wellFormed depth sigs g s w) as [Ht Hr]. split.
  - eapply Forall_impl; [|exact Ht].
    intros [p input| | | | | | ]; simpl; trivial.
    intros [[(Hl & _) _] E]. subst input. exact Hl.
  - intros p w' E. destruct (Hr p w' E) as (Hl & _). exact Hl.
Qed.

(** X2.  [bufferredSize] is the sum, over the buffered events, of the length of
    the message plus [eventHeaderSize]: at every [PutLogEvents] call and
    whenever the loop is between two signals. *)
Theorem bufferredSize_is_sum depth sigs g s w :
  Forall (fun o => match o with
                   | CallPutLogEvents p input =>
                       bufferredSize p = sumSizes eventHeaderSize (LogEvents input)
                   | _ => True
                   end)
    (fst (loop depth sigs (NewPusher g s) w))
  /\ (forall p w', snd (loop depth sigs (NewPusher g s) w) = Some (p, w') ->
        bufferredSize p = sumSizes eventHeaderSize (events p)).
Proof.
  destruct (start_wellFormed depth sigs g s w) as [Ht Hr]. split.
  - eapply Forall_impl; [|exact Ht].
    intros [p input| | | | | | ]; simpl; trivial.
    intros [[(_ & Hs & _) _] E]. subst input. exact Hs.
  - intros p w' E. destruct (Hr p w' E) as (_ & Hs & _). exact Hs.
Qed.

(** X3.  [minT] and [maxT] are nil exactly when the buffer is empty, and are
    otherwise both set with [minT] not after [maxT]. *)
Theorem minT_maxT_follow_buffer depth sigs g s w p w' :
  snd (loop depth sigs (NewPusher g s) w) = Some (p, w') ->
  match events p with
  | [] => minT p = None /\ maxT p = None
  | _ :: _ => exists a b, minT p = Some a /\ maxT p = Some b /\ a <= b
  end.
Proof.
  intros E. destruct (start_wellFormed depth sigs g s w) as [_ Hr].
  destruct (Hr p w' E) as (_ & _ & Hm). exact Hm.
Qed.

(** X4.  When the suffix fits in the message limit and a message of the limit
    with its header fits in a request, no [PutLogEvents] request is made
    with an empty list of events, whatever the service answers. *)
Theorem no_empty_request depth sigs g s w :
  len truncatedSuffix <= msgSizeLimit ->
  msgSizeLimit + eventHeaderSize <= reqSizeLimit ->
  Forall (fun o => match o with
                   | CallPutLogEvents _ input => LogEvents input <> []
                   | _ => True
                   end)
    (fst (loop depth sigs (NewPusher g s) w)).
Proof.
  intros Hfit Hone.
  assert (H : holds (putSendable eventHeaderSize true)
                (wellFormed eventHeaderSize) (loop depth sigs (NewPusher g s))).
  { apply start_sendable.
    - intros _. split; assumption.
    - apply (wellFormed_reset eventHeaderSize (NewPusher g s)). }
  destruct (H w) as [Ht _].
  eapply Forall_impl; [|exact Ht].
  intros [p input| | | | | | ]; simpl; trivial.
  intros [[_ Hn] E]. subst input. apply Hn. reflexivity.
Qed.

End ShapeTheorems.

(* ================================================================== *)
(** ** The limits of a request, when [send] always clears *)

Lemma Sub_le_day x y : (Sub x y >? 24 * Hour) = false -> x - y <= 24 * Hour.
Proof.
  intros H.
  destruct (Z.gtb_spec (Sub x y) (24 * Hour)) as [Hgt|Hle]; [discriminate|].
  destruct (Z.le_gt_cases (x - y) (24 * Hour)) as [Hok|Hbad]; [exact Hok|].
  exfalso.
  assert (Hk : 0 <= 24 * Hour < 2 ^ 62) by (rewrite Hour_value; lia).
  apply (proj2 (@Sub_gt x y (24 * Hour) Hk)) in Hbad. lia.
Qed.

Lemma spanExceeded_false et p :
  spanExceeded et p = false ->
  match minT p with Some a => et - a <= 24 * Hour | None => True end /\
  match maxT p with Some b => b - et <= 24 * Hour | None => True end.
Proof.
  unfold spanExceeded. intros H. apply orb_false_iff in H.
  destruct H as [Ha Hb]. split.
  - destruct (minT p); [apply Sub_le_day, Ha | exact I].
  - destruct (maxT p); [apply Sub_le_day, Hb | exact I].
Qed.

Lemma cleared_reset p : cleared (reset p).
Proof. unfold cleared. simpl. repeat split. Qed.

Lemma cleared_withinLimits p : cleared p -> withinLimits p.
Proof.
  intros (He & _ & Hs & Ha & Hb & _). unfold withinLimits.
  rewrite He, Hs, Ha. unfold reqSizeLimit, reqEventsLimit, len. simpl.
  repeat split; lia.
Qed.

Lemma cleared_wellFormed h p : cleared p -> wellFormed h p.
Proof.
  intros (He & Hc & Hs & Ha & Hb & _). unfold wellFormed.
  rewrite He, Hc, Hs. repeat split; assumption.
Qed.

Lemma markNeedSort_frame ce p :
  events (markNeedSort ce p) = events p /\
  bufferredSize (markNeedSort ce p) = bufferredSize p /\
  minT (markNeedSort ce p) = minT p /\ maxT (markNeedSort ce p) = maxT p /\
  doneCallbacks (markNeedSort ce p) = doneCallbacks p.
Proof.
  unfold markNeedSort. destruct (lastTimestamp p) as [t|];
    [destruct (Timestamp ce <? t)|]; repeat split.
Qed.

(** Appending within the limits. *)
Lemma append_withinLimits h ce e sz p :
  wellFormed h p ->
  bufferredSize p + sz <= reqSizeLimit ->
  len (events p) + 1 <= reqEventsLimit ->
  match minT p, maxT p with
  | Some a, Some b =>
      b - a <= 24 * Hour /\ Time e - a <= 24 * Hour /\ b - Time e <= 24 * Hour
  | _, _ => True
  end ->
  withinLimits (appendEvent ce e sz (markNeedSort ce p)).
Proof.
  intros (_ & _ & Hm) Hsz Hn Hspan.
  destruct (markNeedSort_frame ce p) as (Hev & Hbs & Hmin & Hmax & _).
  unfold withinLimits, appendEvent.
  cbn [events bufferredSize minT maxT].
  rewrite Hev, Hbs, Hmin, Hmax, len_app.
  split; [exact Hsz|]. split; [exact Hn|].
  rewrite Hour_value in *.
  destruct (events p) as [|x l].
  - destruct Hm as [Ha Hb]. rewrite Ha, Hb. lia.
  - destruct Hm as (a & b & Ha & Hb & Hab). rewrite Ha, Hb in *.
    unfold After, Before.
    destruct (Z.ltb_spec (Time e) a), (Z.ltb_spec b (Time e)); lia.
Qed.

Section Limits.

Variable msgSizeLimit : Z.
Variable truncatedSuffix : gostring.
Variable eventHeaderSize : Z.
Variable W : Type.
Variable Service : CloudWatchLogsService W.

Hypothesis service_clears : neverKeeps Service.
Hypothesis suffix_fits : len truncatedSuffix <= msgSizeLimit.
Hypothesis one_fits : msgSizeLimit + eventHeaderSize <= reqSizeLimit.

Local Abbreviation wf := (wellFormed eventHeaderSize).
Local Abbreviation inv := (fun q => wf q /\ withinLimits q).

Lemma send_clears depth p :
  inv p -> holds putWithinLimits cleared (send Service depth p).
Proof.
  intros Hp. destruct service_clears as [Hput Hcreate].
  apply (@send_keeps W Service putWithinLimits inv cleared
           (fun r => r <> inr (AwsError (InvalidSequenceTokenException None)))
           (fun a => a = None)).
  - exact Hput.
  - exact Hcreate.
  - intros [ | | | | | | ]; intros; exact I.
  - intros q [Hq (Hs & Hn & Hspan)]. simpl. unfold withinLimits.
    rewrite sortIfNeeded_events.
    unfold sortIfNeeded. destruct (needSort q); simpl;
      [rewrite sortStable_len|]; repeat split; assumption.
  - intros q [Hq (Hs & Hn & Hspan)].
    split; [apply wellFormed_sort, Hq|]. unfold withinLimits.
    rewrite sortIfNeeded_events.
    unfold sortIfNeeded. destruct (needSort q); simpl;
      [rewrite sortStable_len|]; repeat split; assumption.
  - intros q t Hq. exact Hq.
  - intros Hk. exfalso. apply Hk. reflexivity.
  - intros err Hc. discriminate.
  - apply cleared_reset.
  - exact Hp.
Qed.

Lemma flushIf_clears c depth p :
  inv p ->
  holds putWithinLimits (fun q => cleared q \/ (c = false /\ q = p))
    (flushIf Service c depth p).
Proof.
  intros Hp. unfold flushIf. destruct c.
  - eapply holds_weaken; [apply send_clears, Hp|]. intros q Hq. left. exact Hq.
  - apply holds_ret. right. split; reflexivity.
Qed.

Lemma onEvent_withinLimits depth now e p :
  inv p ->
  holds putWithinLimits inv
    (onEvent msgSizeLimit truncatedSuffix eventHeaderSize Service depth now e p).
Proof.
  intros Hp. unfold onEvent.
  eapply holds_bind with (Q := fun _ => True).
  { destruct (len (events p) =? 0);
      [apply holds_emit | apply holds_ret]; exact I. }
  intros _ _. eapply holds_bind; [apply flushIf_clears, Hp|].
  intros p1 H1.
  assert (Hp1 : inv p1).
  { destruct H1 as [Hc|[_ ->]]; [|exact Hp].
    split; [apply cleared_wellFormed | apply cleared_withinLimits]; exact Hc. }
  assert (Hspan1 :
    match minT p1, maxT p1 with
    | Some a, Some b =>
        b - a <= 24 * Hour /\ Time e - a <= 24 * Hour /\ b - Time e <= 24 * Hour
    | _, _ => True
    end).
  { destruct H1 as [Hc|[Hx ->]].
    - destruct Hc as (_ & _ & _ & Ha & _). rewrite Ha. exact I.
    - destruct (spanExceeded_false _ _ Hx) as [Ha Hb].
      destruct Hp as [_ (_ & _ & Hs)].
      destruct (minT p), (maxT p); try exact I. repeat split; assumption. }
  pose proof (convertEvent_frame msgSizeLimit truncatedSuffix now e p1) as Hf.
  pose proof (convertEvent_message msgSizeLimit truncatedSuffix now e p1) as Hmsg.
  cbv zeta in Hf.
  destruct (convertEvent msgSizeLimit truncatedSuffix now e p1) as [ce p2].
  simpl in Hf, Hmsg.
  destruct Hf as (_ & _ & Hev & Hmin & Hmax & Hcb & Hsz & _ & _).
  assert (Hp2 : inv p2).
  { unfold wellFormed, withinLimits.
    rewrite Hev, Hmin, Hmax, Hcb, Hsz. exact Hp1. }
  assert (Hone : len (ileMessage ce) + eventHeaderSize <= reqSizeLimit).
  { pose proof (@truncateMessage_bound msgSizeLimit truncatedSuffix
                  suffix_fits (Message e)) as Hb.
    rewrite Hmsg. lia. }
  eapply holds_bind; [apply flushIf_clears, Hp2|].
  intros p3 H3. apply holds_ret.
  destruct H3 as [Hc|[Hx ->]].
  - split; [apply wellFormed_append, cleared_wellFormed, Hc|].
    apply append_withinLimits with (h := eventHeaderSize).
    + apply cleared_wellFormed, Hc.
    + destruct Hc as (_ & _ & Hs & _). rewrite Hs. lia.
    + destruct Hc as (He & _). rewrite He. unfold reqEventsLimit, len. simpl. lia.
    + destruct Hc as (_ & _ & _ & Ha & _). rewrite Ha. exact I.
  - split; [apply wellFormed_append, Hp2|].
    apply orb_false_iff in Hx. destruct Hx as [Hx1 Hx2].
    destruct Hp2 as [Hwf (Hs & Hn & _)].
    apply append_withinLimits with (h := eventHeaderSize).
    + exact Hwf.
    + destruct (Z.gtb_spec (bufferredSize p2 + (len (ileMessage ce) + eventHeaderSize))
                  reqSizeLimit); [discriminate | lia].
    + apply Z.eqb_neq in Hx2. lia.
    + rewrite Hmin, Hmax. exact Hspan1.
Qed.

Lemma start_withinLimits depth sigs p :
  inv p ->
  holds putWithinLimits inv
    (start msgSizeLimit truncatedSuffix eventHeaderSize Service depth sigs p).
Proof.
  assert (Hflush : forall c q, inv q ->
            holds putWithinLimits inv (flushIf Service c depth q)).
  { intros c q Hq. eapply holds_weaken; [apply flushIf_clears, Hq|].
    intros q' [Hc|[_ ->]]; [|exact Hq].
    split; [apply cleared_wellFormed | apply cleared_withinLimits]; exact Hc. }
  revert p. induction sigs as [|[now e| |] sigs IH]; intros p Hp; simpl.
  - apply holds_ret, Hp.
  - eapply holds_bind; [apply onEvent_withinLimits, Hp|].
    intros q Hq. apply IH, Hq.
  - eapply holds_bind; [apply Hflush, Hp|]. intros q Hq. apply IH, Hq.
  - apply Hflush, Hp.
Qed.

(** X5.  With a service with which [send] never returns with the buffer kept,
    every [PutLogEvents] call finds at most [reqSizeLimit] bytes and at most
    [reqEventsLimit] events buffered. *)
Theorem requests_within_size_and_count depth sigs g s w :
  Forall (fun o => match o with
                   | CallPutLogEvents p input =>
                       bufferredSize p <= reqSizeLimit /\
                       len (events p) <= reqEventsLimit
                   | _ => True
                   end)
    (fst (start msgSizeLimit truncatedSuffix eventHeaderSize Service
            depth sigs (NewPusher g s) w)).
Proof.
  assert (H0 : inv (NewPusher g s)).
  { split; [apply (wellFormed_reset eventHeaderSize (NewPusher g s))|].
    apply cleared_withinLimits, (cleared_reset (NewPusher g s)). }
  destruct (start_withinLimits depth sigs H0 w) as [Ht _].
  eapply Forall_impl; [|exact Ht].
  intros [p input| | | | | | ]; simpl; trivial.
  intros (Hs & Hn & _). split; assumption.
Qed.

(** X6.  With such a service, every [PutLogEvents] call finds [maxT - minT] at
    24 hours at most. *)
Theorem requests_within_a_day depth sigs g s w :
  Forall (fun o => match o with
                   | CallPutLogEvents p input =>
                       match minT p, maxT p with
                       | Some a, Some b => b - a <= 24 * Hour
                       | _, _ => True
                       end
                   | _ => True
                   end)
    (fst (start msgSizeLimit truncatedSuffix eventHeaderSize Service
            depth sigs (NewPusher g s) w)).
Proof.
  assert (H0 : inv (NewPusher g s)).
  { split; [apply (wellFormed_reset eventHeaderSize (NewPusher g s))|].
    apply cleared_withinLimits, (cleared_reset (NewPusher g s)). }
  destruct (start_withinLimits depth sigs H0 w) as [Ht _].
  eapply Forall_impl; [|exact Ht].
  intros [p input| | | | | | ]; simpl; trivial.
  intros (_ & _ & Hspan). exact Hspan.
Qed.

End Limits.

(* ================================================================== *)
(** ** Callbacks *)

Lemma invoked_app t1 t2 : invoked (t1 ++ t2) = invoked t1 ++ invoked t2.
Proof.
  induction t1 as [|o t1 IH]; simpl; [reflexivity|].
  destruct o; simpl; rewrite ?IH; reflexivity.
Qed.

Lemma invoked_map_InvokeDone cbs : invoked (map InvokeDone cbs) = cbs.
Proof. induction cbs as [|c cbs IH]; simpl; [|rewrite IH]; reflexivity. Qed.

Lemma invoked_none tr : Forall (fun o => isDone o = false) tr -> invoked tr = [].
Proof.
  induction 1 as [|o tr Ho _ IH]; simpl; [reflexivity|].
  destruct o; simpl in *; try exact IH. discriminate.
Qed.

Lemma subseq_refl {A} (l : list A) : subseq l l.
Proof. induction l; constructor; assumption. Qed.

Lemma subseq_nil_l {A} (l : list A) : subseq [] l.
Proof. induction l; constructor; assumption. Qed.

Lemma subseq_trans {A} (l1 l2 l3 : list A) :
  subseq l1 l2 -> subseq l2 l3 -> subseq l1 l3.
Proof.
  intros H12 H23. revert l1 H12.
  induction H23 as [|x l2 l3 H IH|x l2 l3 H IH]; intros l1 H12.
  - exact H12.
  - constructor. apply IH, H12.
  - inversion H12; subst.
    + constructor. apply IH. assumption.
    + apply subseq_take. apply IH. assumption.
Qed.

Lemma subseq_app {A} (l1 l2 m1 m2 : list A) :
  subseq l1 l2 -> subseq m1 m2 -> subseq (l1 ++ m1) (l2 ++ m2).
Proof.
  intros Hl Hm. induction Hl; simpl; [exact Hm | |]; constructor; assumption.
Qed.

Lemma subseq_In {A} (l1 l2 : list A) x : subseq l1 l2 -> In x l1 -> In x l2.
Proof.
  induction 1 as [|y l1 l2 H IH|y l1 l2 H IH]; simpl; intros Hin.
  - exact Hin.
  - right. apply IH, Hin.
  - destruct Hin as [->|Hin]; [left; reflexivity | right; apply IH, Hin].
Qed.

Lemma subseq_NoDup {A} (l1 l2 : list A) : subseq l1 l2 -> NoDup l2 -> NoDup l1.
Proof.
  induction 1 as [|y l1 l2 H IH|y l1 l2 H IH]; intros Hnd.
  - exact Hnd.
  - inversion Hnd; subst. apply IH. assumption.
  - inversion Hnd; subst. constructor.
    + intros Hin. apply (@subseq_In A l1 l2 y H) in Hin. contradiction.
    + apply IH. assumption.
Qed.

Section Callbacks.

Variable W : Type.
Variable Service : CloudWatchLogsService W.

Lemma invokeAll_run cbs (w : W) :
  invokeAll cbs w = (map InvokeDone cbs, Some (tt, w)).
Proof.
  induction cbs as [|c cbs IH]; simpl; [reflexivity|].
  unfold bind, emit. rewrite IH. reflexivity.
Qed.

Lemma warnRejected_run output (w : W) :
  exists n, (n <= 3)%nat /\
    warnRejected output w = (repeat (LogLine LvlW) n, Some (tt, w)).
Proof.
  unfold warnRejected. destruct (RejectedInfo output) as [info|].
  - destruct info as [[a|] [b|] [c|]]; cbn;
      [exists 3%nat | exists 2%nat | exists 2%nat | exists 1%nat
       | exists 2%nat | exists 1%nat | exists 1%nat | exists 0%nat];
      split; try lia; reflexivity.
  - exists 0%nat. split; [lia | reflexivity].
Qed.

(** The successful answer, step by step. *)
Lemma send_success_run depth p w output w1 :
  PutLogEvents Service (putInput (sortIfNeeded p)) w = (inl output, w1) ->
  exists n p',
    (n <= 3)%nat
    /\ send Service (S depth) p w =
         (CallPutLogEvents (sortIfNeeded p) (putInput (sortIfNeeded p))
            :: repeat (LogLine LvlW) n
            ++ map InvokeDone (doneCallbacks p) ++ [RuntimeGC],
          Some (p', w1))
    /\ invoked (fst (send Service (S depth) p w)) = doneCallbacks p
    /\ cleared p'
    /\ sequenceToken p' = match NextSequenceToken output with
                          | Some t => Some t
                          | None => sequenceToken p
                          end
    /\ lastValidTime p' = lastValidTime p.
Proof.
  intros Hput.
  destruct (warnRejected_run output w1) as (n & Hn & Hwarn).
  exists n.
  eexists (reset (match NextSequenceToken output with
                  | Some t => set_sequenceToken (Some t) (sortIfNeeded p)
                  | None => sortIfNeeded p
                  end)).
  assert (Hcb : doneCallbacks
                  (match NextSequenceToken output with
                   | Some t => set_sequenceToken (Some t) (sortIfNeeded p)
                   | None => sortIfNeeded p
                   end) = doneCallbacks p).
  { unfold sortIfNeeded.
    destruct (NextSequenceToken output), (needSort p); reflexivity. }
  assert (E : send Service (S depth) p w =
         (CallPutLogEvents (sortIfNeeded p) (putInput (sortIfNeeded p))
            :: repeat (LogLine LvlW) n
            ++ map InvokeDone (doneCallbacks p) ++ [RuntimeGC],
          Some (reset (match NextSequenceToken output with
                       | Some t => set_sequenceToken (Some t) (sortIfNeeded p)
                       | None => sortIfNeeded p
                       end), w1))).
  { simpl. unfold bind at 1. unfold callPutLogEvents. rewrite Hput.
    cbv iota beta. unfold bind at 1. rewrite Hwarn.
    unfold bind at 1. rewrite invokeAll_run, Hcb. reflexivity. }
  split; [exact Hn|]. split; [exact E|]. split.
  { rewrite E. cbn [fst invoked]. rewrite !invoked_app, invoked_map_InvokeDone.
    rewrite invoked_none.
    - simpl. rewrite app_nil_r. reflexivity.
    - apply Forall_forall. intros o Ho. apply repeat_spec in Ho. subst o.
      reflexivity. }
  split; [apply cleared_reset|].
  unfold sortIfNeeded.
  destruct (NextSequenceToken output), (needSort p); split; reflexivity.
Qed.

(** X7.  When [PutLogEvents] succeeds, [send] shows at most three warnings,
    invokes every buffered callback once, in the order in which they are
    stored, hints the collector and returns with the buffer reset; the
    sequence token is the one of the response if it carries one, and the
    old one otherwise. *)
Theorem send_success depth p w output w1 :
  PutLogEvents Service (putInput (sortIfNeeded p)) w = (inl output, w1) ->
  exists n p',
    (n <= 3)%nat
    /\ send Service (S depth) p w =
         (CallPutLogEvents (sortIfNeeded p) (putInput (sortIfNeeded p))
            :: repeat (LogLine LvlW) n
            ++ map InvokeDone (doneCallbacks p) ++ [RuntimeGC],
          Some (p', w1))
    /\ invoked (fst (send Service (S depth) p w)) = doneCallbacks p
    /\ cleared p'
    /\ sequenceToken p' = match NextSequenceToken output with
                          | Some t => Some t
                          | None => sequenceToken p
                          end
    /\ lastValidTime p' = lastValidTime p.
Proof. exact (@send_success_run depth p w output w1). Qed.

Lemma createLogGroupAndStream_returns p w :
  exists tr a w',
    createLogGroupAndStream Service p w = (tr, Some (a, w')) /\
    invoked tr = [].
Proof.
  pose proof (createLogGroupAndStream_trace Service p w) as Ht.
  assert (Hs : exists a w',
             snd (createLogGroupAndStream Service p w) = Some (a, w')).
  { unfold createLogGroupAndStream, bind, callCreateLogGroup,
      callCreateLogStream, ret.
    destruct (CreateLogGroup Service (Group p) w) as [[[a|]|] w1];
      try destruct (negb _);
      try destruct (CreateLogStream Service (Group p) (Stream p) w1);
      simpl; eauto. }
  destruct Hs as (a & w' & Hs).
  destruct (createLogGroupAndStream Service p w) as [tr r].
  simpl in *. subst r. exists tr, a, w'. split; [reflexivity|].
  apply invoked_none. eapply Forall_impl; [|exact Ht].
  intros [ | | | | | | ]; simpl; intros H; try reflexivity; contradiction.
Qed.

(** The answers after which nothing is retried. *)
Lemma send_hard_error depth p w err w1 :
  PutLogEvents Service (putInput (sortIfNeeded p)) w = (inr err, w1) ->
  nonRecoverable err ->
  send Service (S depth) p w =
    ([CallPutLogEvents (sortIfNeeded p) (putInput (sortIfNeeded p));
      LogLine LvlE],
     Some (reset p, w1)).
Proof.
  intros Hput Herr. simpl. unfold bind at 1. unfold callPutLogEvents.
  rewrite Hput.
  destruct err as [[| expected | code]|]; simpl in Herr; try contradiction;
    cbn; rewrite reset_sortIfNeeded; reflexivity.
Qed.

(** [send] invokes the buffered callbacks all or not at all. *)
Lemma send_outcome depth p w : sendOutcome p (send Service depth p w).
Proof.
  assert (Hcb : doneCallbacks (sortIfNeeded p) = doneCallbacks p).
  { unfold sortIfNeeded. destruct (needSort p); reflexivity. }
  revert p w Hcb. induction depth as [|depth IH]; intros p w Hcb.
  - right. simpl. split; [reflexivity | right; reflexivity].
  - destruct (PutLogEvents Service (putInput (sortIfNeeded p)) w)
      as [[output|[[| expected | code]|]] w1] eqn:Hput.
    + destruct (send_success_run depth p w Hput)
        as (n & p' & _ & E & Hinv & Hclr & _).
      left. split; [exact Hinv|]. rewrite E. simpl.
      destruct Hclr as (_ & Hc & _). exact Hc.
    + destruct (createLogGroupAndStream_returns (sortIfNeeded p) w1)
        as (tr2 & a & w2 & Hcreate & Hinv2).
      destruct a as [err|].
      * rewrite (send_notFound_failed Service depth p w Hput Hcreate). cbv zeta.
        right. cbn [fst snd invoked pending].
        rewrite invoked_app, Hinv2. simpl.
        split; [reflexivity | left; exact Hcb].
      * rewrite (send_notFound_retry Service depth p w Hput Hcreate). cbv zeta.
        assert (Hcb1 : doneCallbacks (sortIfNeeded (sortIfNeeded p)) =
                       doneCallbacks (sortIfNeeded p))
          by (rewrite sortIfNeeded_idem; reflexivity).
        specialize (IH (sortIfNeeded p) w2 Hcb1).
        unfold sendOutcome in *. cbn [fst snd invoked].
        rewrite invoked_app, Hinv2, Hcb in *. simpl. exact IH.
    + destruct expected as [t|].
      * rewrite (send_invalidToken_retry Service depth p w Hput). cbv zeta.
        assert (Hcb1 : doneCallbacks
                         (sortIfNeeded
                            (set_sequenceToken (Some t) (sortIfNeeded p))) =
                       doneCallbacks
                         (set_sequenceToken (Some t) (sortIfNeeded p))).
        { rewrite sortIfNeeded_set_sequenceToken, sortIfNeeded_idem.
          reflexivity. }
        specialize (IH _ w1 Hcb1).
        unfold sendOutcome in *. cbn [fst snd invoked].
        cbn [set_sequenceToken doneCallbacks] in IH. rewrite Hcb in IH.
        exact IH.
      * rewrite (send_invalidToken_absent Service depth p w Hput).
        right. simpl. split; [reflexivity | left; exact Hcb].
    + rewrite (send_hard_error depth p w Hput I).
      right. simpl. split; [reflexivity | right; reflexivity].
    + rewrite (send_hard_error depth p w Hput I).
      right. simpl. split; [reflexivity | right; reflexivity].
Qed.

End Callbacks.

Section CallbackOrder.

Variable msgSizeLimit : Z.
Variable truncatedSuffix : gostring.
Variable eventHeaderSize : Z.
Variable W : Type.
Variable Service : CloudWatchLogsService W.

Lemma sendOutcome_flows p (x : trace * option (pusher * W)) :
  sendOutcome p x -> flowsInto x (doneCallbacks p).
Proof.
  unfold sendOutcome, flowsInto.
  intros [[-> ->]|[-> [->| ->]]]; simpl; rewrite ?app_nil_r;
    try apply subseq_refl; apply subseq_nil_l.
Qed.

Lemma flushIf_flows c depth p w :
  flowsInto (flushIf Service c depth p w) (doneCallbacks p).
Proof.
  unfold flushIf. destruct c.
  - apply sendOutcome_flows, send_outcome.
  - unfold flowsInto. simpl. apply subseq_refl.
Qed.

Lemma flows_bind (m : M W pusher) (f : pusher -> M W pusher) before extra w :
  flowsInto (m w) before ->
  (forall p1 w1, flowsInto (f p1 w1) (doneCallbacks p1 ++ extra)) ->
  flowsInto (bind m f w) (before ++ extra).
Proof.
  unfold flowsInto, bind. intros Hm Hf.
  destruct (m w) as [t1 [[p1 w1]|]]; simpl in *.
  - specialize (Hf p1 w1). destruct (f p1 w1) as [t2 r2]. simpl in *.
    rewrite invoked_app, <- app_assoc.
    eapply subseq_trans.
    + apply subseq_app; [apply subseq_refl | exact Hf].
    + rewrite app_assoc. apply subseq_app; [exact Hm | apply subseq_refl].
  - rewrite <- (app_nil_r (invoked t1 ++ [])).
    apply subseq_app; [exact Hm | apply subseq_nil_l].
Qed.

Lemma onEvent_flows depth now e p w :
  flowsInto
    (onEvent msgSizeLimit truncatedSuffix eventHeaderSize Service
       depth now e p w)
    (doneCallbacks p ++ [Done e]).
Proof.
  unfold onEvent.
  assert (Hinner : forall w0,
    flowsInto
      (bind (flushIf Service (spanExceeded (Time e) p) depth p)
         (fun p1 =>
            let (ce, p2) := convertEvent msgSizeLimit truncatedSuffix now e p1 in
            bind (flushIf Service
                    ((bufferredSize p2 + (len (ileMessage ce) + eventHeaderSize)
                        >? reqSizeLimit)
                     || (len (events p2) =? reqEventsLimit)) depth p2)
              (fun p3 =>
                 ret (appendEvent ce e (len (ileMessage ce) + eventHeaderSize)
                        (markNeedSort ce p3)))) w0)
      (doneCallbacks p ++ [Done e])).
  { intros w0. apply flows_bind; [apply flushIf_flows|].
    intros p1 w1.
    pose proof (convertEvent_frame msgSizeLimit truncatedSuffix now e p1) as Hf.
    cbv zeta in Hf.
    destruct (convertEvent msgSizeLimit truncatedSuffix now e p1) as [ce p2].
    simpl in Hf. destruct Hf as (_ & _ & _ & _ & _ & Hcb & _).
    rewrite <- Hcb. apply flows_bind; [apply flushIf_flows|].
    intros p3 w3. unfold flowsInto. simpl.
    destruct (markNeedSort_frame ce p3) as (_ & _ & _ & _ & Hcb3).
    rewrite Hcb3. apply subseq_refl. }
  unfold bind at 1.
  destruct (len (events p) =? 0); simpl.
  - specialize (Hinner w). unfold flowsInto in *.
    match goal with
    | |- context [match ?m with (_, _) => _ end] => destruct m as [t2 r2]
    end.
    simpl in *. exact Hinner.
  - specialize (Hinner w). unfold flowsInto in *.
    match goal with
    | |- context [match ?m with (_, _) => _ end] => destruct m as [t2 r2]
    end.
    simpl in *. exact Hinner.
Qed.

Lemma start_flows depth sigs p w :
  flowsInto
    (start msgSizeLimit truncatedSuffix eventHeaderSize Service depth sigs p w)
    (doneCallbacks p ++ delivered sigs).
Proof.
  revert p w. induction sigs as [|[now e| |] sigs IH]; intros p w; simpl.
  - unfold flowsInto. simpl. rewrite app_nil_r. apply subseq_refl.
  - change (Done e :: delivered sigs) with ([Done e] ++ delivered sigs).
    rewrite app_assoc.
    apply flows_bind; [apply onEvent_flows | intros; apply IH].
  - apply flows_bind; [apply flushIf_flows | intros; apply IH].
  - rewrite app_nil_r. apply flushIf_flows.
Qed.

(** X8.  The callbacks the loop invokes, followed by those it still holds, are
    callbacks of the events it received, in the order of receipt: sorting
    the events does not reorder the callbacks, and no event's callback is
    invoked twice (when the callbacks received are all different, the
    callbacks invoked are). *)
Theorem callbacks_in_order_at_most_once depth sigs g s w :
  subseq
    (invoked (fst (start msgSizeLimit truncatedSuffix eventHeaderSize Service
                     depth sigs (NewPusher g s) w))
     ++ pending (snd (start msgSizeLimit truncatedSuffix eventHeaderSize
                        Service depth sigs (NewPusher g s) w)))
    (delivered sigs)
  /\ (NoDup (delivered sigs) ->
      NoDup (invoked (fst (start msgSizeLimit truncatedSuffix eventHeaderSize
                             Service depth sigs (NewPusher g s) w)))).
Proof.
  pose proof (start_flows depth sigs (NewPusher g s) w) as H.
  unfold flowsInto in H. simpl in H. split; [exact H|].
  intros Hnd. eapply subseq_NoDup; [|exact Hnd].
  eapply subseq_trans; [|exact H].
  rewrite <- (app_nil_r (invoked _)) at 1.
  apply subseq_app; [apply subseq_refl | apply subseq_nil_l].
Qed.

End CallbackOrder.

(* ================================================================== *)
(** ** The non-blocking entry point, left alone *)

(** X9.  Left alone with a channel within its capacity, [AddEventNonBlocking]
    returns for a valid event within three steps, with the event at the end
    of the channel; it has taken out the oldest pending event if the
    channel was full and nothing otherwise, it shows nothing (no callback
    of an event taken out is invoked), and the channel is still within its
    capacity. *)
Theorem AddEventNonBlocking_alone n now e ch :
  hasValidTime now e = true ->
  len ch <= eventsChCap ->
  let full := len ch =? eventsChCap in
  AddEventNonBlocking (3 + n) now e ch =
    ([], Returned ((if full then tl ch else ch) ++ [e]),
     if full then firstn 1 ch else [])
  /\ len ((if full then tl ch else ch) ++ [e]) <= eventsChCap.
Proof.
  intros Hvalid Hcap. cbv zeta. unfold AddEventNonBlocking.
  rewrite Hvalid. cbn [negb].
  destruct (Z.eqb_spec (len ch) eventsChCap) as [Hfull|Hroom].
  - destruct ch as [|x rest]; [discriminate|].
    rewrite (@nbLoop_full_alone n e x rest Hfull). simpl. split; [reflexivity|].
    rewrite len_app. unfold len in *. simpl in *. lia.
  - change (3 + n)%nat with (S (2 + n)).
    rewrite (@nbLoop_room (2 + n) e ch) by lia. split; [reflexivity|].
    rewrite len_app. unfold len in *. simpl. lia.
Qed.

(* ================================================================== *)
(** ** The messages of a request *)

Section MessageSizes.

Variable msgSizeLimit : Z.
Variable truncatedSuffix : gostring.
Variable eventHeaderSize : Z.
Variable W : Type.
Variable Service : CloudWatchLogsService W.

Hypothesis suffix_fits : len truncatedSuffix <= msgSizeLimit.

Local Abbreviation small :=
  (fun q => Forall (fun ce => len (ileMessage ce) <= msgSizeLimit) (events q)).
Local Abbreviation putSmall :=
  (fun o => match o with
            | CallPutLogEvents _ input =>
                Forall (fun ce => len (ileMessage ce) <= msgSizeLimit)
                  (LogEvents input)
            | _ => True
            end).

Lemma small_sort q : small q -> small (sortIfNeeded q).
Proof.
  cbv beta. rewrite sortIfNeeded_events. destruct (needSort q); [|trivial].
  intros H. eapply Permutation_Forall; [|exact H].
  apply Permutation_sym, sortStable_perm.
Qed.

Lemma flushIf_small c depth p :
  small p -> holds putSmall small (flushIf Service c depth p).
Proof.
  intros Hp. unfold flushIf. destruct c; [|apply holds_ret, Hp].
  apply (@send_keeps W Service putSmall small small
           (fun _ => True) (fun _ => True)).
  - intros; exact I.
  - intros; exact I.
  - intros [ | | | | | | ]; intros; exact I.
  - intros q Hq. simpl. apply small_sort, Hq.
  - intros q Hq. apply small_sort, Hq.
  - intros q t Hq. exact Hq.
  - intros _ q Hq. exact Hq.
  - intros err _ q Hq. exact Hq.
  - intros q. constructor.
  - exact Hp.
Qed.

(** X10.  Every event of every [PutLogEvents] request has a message of at most
    [msgSizeLimit] bytes, whatever the producers hand over. *)
Theorem request_messages_within_limit depth sigs g s w :
  Forall (fun o => match o with
                   | CallPutLogEvents _ input =>
                       Forall (fun ce => len (ileMessage ce) <= msgSizeLimit)
                         (LogEvents input)
                   | _ => True
                   end)
    (fst (start msgSizeLimit truncatedSuffix eventHeaderSize Service
            depth sigs (NewPusher g s) w)).
Proof.
  assert (H : forall p, small p ->
            holds putSmall small
              (start msgSizeLimit truncatedSuffix eventHeaderSize Service
                 depth sigs p)).
  { induction sigs as [|[now e| |] rest IH]; intros p Hp; simpl.
    - apply holds_ret, Hp.
    - eapply holds_bind; [|intros q Hq; apply IH, Hq].
      unfold onEvent.
      eapply holds_bind with (Q := fun _ => True).
      { destruct (len (events p) =? 0);
          [apply holds_emit | apply holds_ret]; exact I. }
      intros _ _. eapply holds_bind; [apply flushIf_small, Hp|].
      intros p1 Hp1.
      pose proof (convertEvent_frame msgSizeLimit truncatedSuffix now e p1) as Hf.
      pose proof (convertEvent_message msgSizeLimit truncatedSuffix now e p1)
        as Hmsg.
      cbv zeta in Hf.
      destruct (convertEvent msgSizeLimit truncatedSuffix now e p1) as [ce p2].
      simpl in Hf, Hmsg. destruct Hf as (_ & _ & Hev & _).
      eapply holds_bind; [apply flushIf_small; rewrite Hev; exact Hp1|].
      intros p3 Hp3. apply holds_ret. simpl.
      rewrite markNeedSort_events. apply Forall_app. split; [exact Hp3|].
      constructor; [|constructor]. rewrite Hmsg.
      apply (@truncateMessage_bound msgSizeLimit truncatedSuffix suffix_fits).
    - eapply holds_bind; [apply flushIf_small, Hp|].
      intros q Hq. apply IH, Hq.
    - apply flushIf_small, Hp. }
  apply (H (NewPusher g s)). constructor.
Qed.

End MessageSizes.

(* ================================================================== *)
(** ** What the channel holds *)

Lemma subseq_skipn {A} k (l : list A) : subseq (skipn k l) l.
Proof.
  revert l. induction k as [|k IH]; intros l; simpl.
  - apply subseq_refl.
  - destruct l as [|x l]; [constructor | constructor; apply IH].
Qed.

Lemma nbLoop_returned n e pt ch ch' ev :
  nbLoop n e pt ch = (Returned ch', ev) ->
  exists k, ch' = skipn k ch ++ [e].
Proof.
  revert pt ch ev. induction n as [|n IH]; intros pt ch ev; simpl.
  - discriminate.
  - destruct pt; simpl.
    + unfold chSend. destruct (len ch <? eventsChCap).
      * intros E. inversion E; subst. exists 0%nat. reflexivity.
      * destruct (nbLoop n e AtReceive ch) as [r ev'] eqn:En.
        intros E. inversion E; subst. eapply IH. exact En.
    + destruct ch as [|x rest]; simpl; [discriminate|].
      destruct (nbLoop n e AtSelect rest) as [r ev'] eqn:En.
      intros E. inversion E; subst.
      destruct (IH _ _ _ En) as [k Hk]. exists (S k). exact Hk.
Qed.

Section ChannelContent.

Variable msgSizeLimit : Z.
Variable truncatedSuffix : gostring.
Variable eventHeaderSize : Z.
Variable W : Type.
Variable Service : CloudWatchLogsService W.

Local Abbreviation step :=
  (sysStep msgSizeLimit truncatedSuffix eventHeaderSize Service).
Local Abbreviation run :=
  (sysRun msgSizeLimit truncatedSuffix eventHeaderSize Service).

Lemma sysStep_channel depth m st tr st' :
  step depth m st = (tr, Some st') ->
  subseq (sysChan st') (sysChan st ++ accepted [m]).
Proof.
  destruct m as [now e|now e|now|]; unfold sysStep; cbn [accepted].
  - unfold AddEvent. destruct (hasValidTime now e); cbn [negb].
    + unfold chSend. destruct (len (sysChan st) <? eventsChCap);
        intros E; inversion E; subst; cbn [sysChan]. apply subseq_refl.
    + intros E. inversion E; subst. cbn [sysChan]. rewrite app_nil_r.
      apply subseq_refl.
  - unfold AddEventNonBlocking. destruct (hasValidTime now e); cbn [negb].
    + destruct (nbLoop 3 e AtSelect (sysChan st)) as [r ev] eqn:En.
      destruct r as [ch'|ch']; intros E; inversion E; subst; cbn [sysChan].
      destruct (@nbLoop_returned _ _ _ _ _ _ En) as [k ->].
      apply subseq_app; [apply subseq_skipn | apply subseq_refl].
    + intros E. inversion E; subst. cbn [sysChan]. rewrite app_nil_r.
      apply subseq_refl.
  - destruct (sysChan st) as [|x rest] eqn:Ech; cbn [chRecv]; [discriminate|].
    unfold workerResult.
    match goal with
    | |- context [match ?m with (_, _) => _ end] => destruct m as [t2 [[q w2]|]]
    end; intros E; inversion E; subst; cbn [sysChan].
    rewrite app_nil_r. constructor. apply subseq_refl.
  - unfold workerResult.
    match goal with
    | |- context [match ?m with (_, _) => _ end] => destruct m as [t2 [[q w2]|]]
    end; intros E; inversion E; subst; cbn [sysChan].
    rewrite app_nil_r. apply subseq_refl.
Qed.

Lemma accepted_cons m moves : accepted (m :: moves) = accepted [m] ++ accepted moves.
Proof.
  destruct m as [now e|now e|now|]; simpl; try reflexivity;
    destruct (hasValidTime now e); reflexivity.
Qed.

(** X11.  However producers and worker take turns, the channel holds only events
    that were in it at the start or passed the admission check of a
    submission since, and holds them in the order of submission. *)
Theorem channel_holds_accepted_in_order depth moves st tr st' :
  run depth moves st = (tr, Some st') ->
  subseq (sysChan st') (sysChan st ++ accepted moves).
Proof.
  revert st tr. induction moves as [|m moves IH]; intros st tr.
  - cbn [sysRun accepted]. intros E. inversion E; subst.
    rewrite app_nil_r. apply subseq_refl.
  - rewrite (accepted_cons m moves), app_assoc. cbn [sysRun].
    destruct (step depth m st) as [t1 [st1|]] eqn:E1; [|discriminate].
    destruct (run depth moves st1) as [t2 r2] eqn:E2.
    intros E. inversion E; subst.
    eapply subseq_trans; [apply (@IH st1 t2 E2)|].
    apply subseq_app; [|apply subseq_refl].
    apply (@sysStep_channel depth m st t1 st1 E1).
Qed.

End ChannelContent.

(* ================================================================== *)
(** ** The theorems of the last sections at concrete inputs *)

Lemma freshStream_neverKeeps : neverKeeps freshStream.
Proof.
  split.
  - intros input [|]; simpl; discriminate.
  - intros p w a w' E.
    unfold createLogGroupAndStream, bind, callCreateLogGroup,
      callCreateLogStream in E.
    simpl in E. inversion E. reflexivity.
Qed.

Lemma callbacks_parallel_to_events_witness :
  len (events unsortedPusher) = len (doneCallbacks unsortedPusher).
Proof.
  assert (E : snd outOfOrderRun = Some (unsortedPusher, mkScript [] [] []))
    by (vm_compute; reflexivity).
  exact (proj2 (@callbacks_parallel_to_events specMsgSizeLimit someSuffix
                  specEventHeaderSize script scripted 4 outOfOrderSignals
                  "group" "stream" (mkScript [] [] []))
           unsortedPusher (mkScript [] [] []) E).
Defined.

Lemma bufferredSize_is_sum_witness :
  bufferredSize unsortedPusher =
    sumSizes specEventHeaderSize (events unsortedPusher).
Proof.
  assert (E : snd outOfOrderRun = Some (unsortedPusher, mkScript [] [] []))
    by (vm_compute; reflexivity).
  exact (proj2 (@bufferredSize_is_sum specMsgSizeLimit someSuffix
                  specEventHeaderSize script scripted 4 outOfOrderSignals
                  "group" "stream" (mkScript [] [] []))
           unsortedPusher (mkScript [] [] []) E).
Defined.

Lemma minT_maxT_follow_buffer_witness :
  exists a b,
    minT unsortedPusher = Some a /\ maxT unsortedPusher = Some b /\ a <= b.
Proof.
  assert (E : snd outOfOrderRun = Some (unsortedPusher, mkScript [] [] []))
    by (vm_compute; reflexivity).
  exact (@minT_maxT_follow_buffer specMsgSizeLimit someSuffix
           specEventHeaderSize script scripted 4 outOfOrderSignals
           "group" "stream" (mkScript [] [] [])
           unsortedPusher (mkScript [] [] []) E).
Defined.

Lemma no_empty_request_witness :
  Forall (fun o => match o with
                   | CallPutLogEvents _ input => LogEvents input <> []
                   | _ => True
                   end)
    (fst oversizeRun).
Proof.
  assert (Hfit : len someSuffix <= specMsgSizeLimit)
    by (vm_compute; discriminate).
  assert (Hone : specMsgSizeLimit + specEventHeaderSize <= reqSizeLimit)
    by (vm_compute; discriminate).
  exact (@no_empty_request specMsgSizeLimit someSuffix specEventHeaderSize
           script scripted 4 oversizeSignals "group" "stream"
           (streamMissing 1) Hfit Hone).
Defined.

Lemma requests_within_size_and_count_witness :
  Forall (fun o => match o with
                   | CallPutLogEvents p input =>
                       bufferredSize p <= reqSizeLimit /\
                       len (events p) <= reqEventsLimit
                   | _ => True
                   end)
    (fst (start specMsgSizeLimit someSuffix specEventHeaderSize freshStream
            4 oversizeSignals (NewPusher "group" "stream") false)).
Proof.
  assert (Hfit : len someSuffix <= specMsgSizeLimit)
    by (vm_compute; discriminate).
  assert (Hone : specMsgSizeLimit + specEventHeaderSize <= reqSizeLimit)
    by (vm_compute; discriminate).
  exact (@requests_within_size_and_count specMsgSizeLimit someSuffix
           specEventHeaderSize bool freshStream freshStream_neverKeeps
           Hfit Hone 4 oversizeSignals "group" "stream" false).
Defined.

Lemma requests_within_a_day_witness :
  Forall (fun o => match o with
                   | CallPutLogEvents p input =>
                       match minT p, maxT p with
                       | Some a, Some b => b - a <= 24 * Hour
                       | _, _ => True
                       end
                   | _ => True
                   end)
    (fst (start specMsgSizeLimit someSuffix specEventHeaderSize freshStream
            4 spanSignals (NewPusher "group" "stream") false)).
Proof.
  assert (Hfit : len someSuffix <= specMsgSizeLimit)
    by (vm_compute; discriminate).
  assert (Hone : specMsgSizeLimit + specEventHeaderSize <= reqSizeLimit)
    by (vm_compute; discriminate).
  exact (@requests_within_a_day specMsgSizeLimit someSuffix
           specEventHeaderSize bool freshStream freshStream_neverKeeps
           Hfit Hone 4 spanSignals "group" "stream" false).
Defined.

Lemma send_success_witness :
  exists n p',
    (n <= 3)%nat
    /\ send scripted 1 unsortedPusher (mkScript [] [] []) =
         (CallPutLogEvents (sortIfNeeded unsortedPusher)
            (putInput (sortIfNeeded unsortedPusher))
            :: repeat (LogLine LvlW) n
            ++ map InvokeDone (doneCallbacks unsortedPusher) ++ [RuntimeGC],
          Some (p', mkScript [] [] []))
    /\ invoked (fst (send scripted 1 unsortedPusher (mkScript [] [] []))) =
         doneCallbacks unsortedPusher
    /\ cleared p'
    /\ sequenceToken p' = match NextSequenceToken emptyOutput with
                          | Some t => Some t
                          | None => sequenceToken unsortedPusher
                          end
    /\ lastValidTime p' = lastValidTime unsortedPusher.
Proof.
  exact (@send_success script scripted 0 unsortedPusher (mkScript [] [] [])
           emptyOutput (mkScript [] [] []) eq_refl).
Defined.

Lemma callbacks_in_order_at_most_once_witness :
  NoDup (invoked (fst oversizeRun)).
Proof.
  assert (Hnd : NoDup (delivered oversizeSignals)).
  { repeat constructor; simpl; intuition discriminate. }
  exact (proj2 (@callbacks_in_order_at_most_once specMsgSizeLimit someSuffix
                  specEventHeaderSize script scripted 4 oversizeSignals
                  "group" "stream" (streamMissing 1)) Hnd).
Defined.

Lemma AddEventNonBlocking_alone_witness :
  AddEventNonBlocking 3 t0 oneMore fullChan =
    ([], Returned (tl fullChan ++ [oneMore]), firstn 1 fullChan).
Proof.
  assert (Hvalid : hasValidTime t0 oneMore = true) by (vm_compute; reflexivity).
  assert (Hcap : len fullChan <= eventsChCap) by (vm_compute; discriminate).
  exact (proj1 (@AddEventNonBlocking_alone 0 t0 oneMore fullChan Hvalid Hcap)).
Defined.

Lemma request_messages_within_limit_witness :
  Forall (fun o => match o with
                   | CallPutLogEvents _ input =>
                       Forall (fun ce => len (ileMessage ce) <= specMsgSizeLimit)
                         (LogEvents input)
                   | _ => True
                   end)
    (fst oversizeRun).
Proof.
  assert (Hfit : len someSuffix <= specMsgSizeLimit)
    by (vm_compute; discriminate).
  exact (@request_messages_within_limit specMsgSizeLimit someSuffix
           specEventHeaderSize script scripted Hfit 4 oversizeSignals
           "group" "stream" (streamMissing 1)).
Defined.

Lemma channel_holds_accepted_in_order_witness :
  subseq [freshEvent] ([] ++ accepted twoSubmissions).
Proof.
  exact (@channel_holds_accepted_in_order specMsgSizeLimit someSuffix
           specEventHeaderSize script scripted 1 twoSubmissions idleSystem
           [LogLine LvlE]
           (mkSystem [freshEvent] (NewPusher "group" "stream")
              (mkScript [] [] []))
           eq_refl).
Defined.
